(** * Todo-react: the state layer of [src/App.jsx]

    A shallow embedding of the hooks and handlers of the to-do list
    component: the persisted store ([useLocalStorage]), the debouncer
    ([useDebounce]), the CRUD handlers of [App], the derived list
    [filteredTodos] and the submit handler of [AddEditModal].

    Conventions.
    - A JavaScript string is its sequence of UTF-16 code units, a [list N].
    - A React state cell is a field of a record; a handler is a function
      from the state at the render it closes over to the state after it.
    - [crypto.randomUUID()] is an input of the handler that calls it.
    - A handler that can throw returns an [option]. *)

From Stdlib Require Import ZArith Ascii String.
From stdpp Require Import base option list gmap.

Local Open Scope N_scope.

(** ** JavaScript strings *)

Abbreviation jsstr := (list N).

(** The code units of an ASCII literal. *)
Definition js (s : string) : jsstr :=
  N_of_ascii <$> list_ascii_of_string s.

(** ECMAScript [WhiteSpace] and [LineTerminator] code points, the set
    [String.prototype.trim] strips; all of them are single code units. *)
Definition isWhiteSpace (c : N) : bool :=
  bool_decide (c ∈ [0x9; 0xA; 0xB; 0xC; 0xD; 0x20; 0xA0; 0x1680;
                    0x2000; 0x2001; 0x2002; 0x2003; 0x2004; 0x2005;
                    0x2006; 0x2007; 0x2008; 0x2009; 0x200A;
                    0x2028; 0x2029; 0x202F; 0x205F; 0x3000; 0xFEFF]).

Fixpoint trimStart (s : jsstr) : jsstr :=
  match s with
  | [] => []
  | c :: s' => if isWhiteSpace c then trimStart s' else s
  end.

Definition trimEnd (s : jsstr) : jsstr :=
  reverse (trimStart (reverse s)).

(** [s.trim()] *)
Definition trim (s : jsstr) : jsstr := trimEnd (trimStart s).

(** Truthiness of a string value: the empty string is the only falsy one. *)
Definition truthy (s : jsstr) : bool :=
  match s with [] => false | _ :: _ => true end.

(** [s.startsWith(p)] and [s.includes(p)]: [p] occurs at the front of,
    respectively somewhere in, [s]. *)
Fixpoint startsWith (s p : jsstr) : bool :=
  match p, s with
  | [], _ => true
  | _ :: _, [] => false
  | a :: p', b :: s' => bool_decide (a = b) && startsWith s' p'
  end.

Fixpoint includes (s p : jsstr) : bool :=
  startsWith s p ||
  match s with
  | [] => false
  | _ :: s' => includes s' p
  end.

(** ** Task records *)

Record Todo := mkTodo {
  id : jsstr;
  text : jsstr;
  done : bool;
  priority : jsstr
}.

#[global] Instance Todo_eq_dec : EqDecision Todo.
Proof. solve_decision. Defined.

(** The second argument of [handleUpdateTodo]: an object holding any
    subset of the keys of a task. *)
Record NewData := mkNewData {
  nd_id : option jsstr;
  nd_text : option jsstr;
  nd_done : option bool;
  nd_priority : option jsstr
}.

(** [{ ...t, ...newData }] *)
Definition spread (t : Todo) (newData : NewData) : Todo :=
  {| id := default (id t) (nd_id newData);
     text := default (text t) (nd_text newData);
     done := default (done t) (nd_done newData);
     priority := default (priority t) (nd_priority newData) |}.

(** [{ text, priority }], the object [handleSubmit] passes on. *)
Definition nd_text_priority (text priority : jsstr) : NewData :=
  {| nd_id := None; nd_text := Some text;
     nd_done := None; nd_priority := Some priority |}.

(** [{ done: b }], the object [handleToggleDone] passes on. *)
Definition nd_done_only (b : bool) : NewData :=
  {| nd_id := None; nd_text := None;
     nd_done := Some b; nd_priority := None |}.

Definition ids (l : list Todo) : list jsstr := id <$> l.

(** ** The updater callbacks handed to [setTodos] *)

(** [currentTodos => [newTodo, ...currentTodos]] *)
Definition prepend (newTodo : Todo) (currentTodos : list Todo) : list Todo :=
  newTodo :: currentTodos.

(** [currentTodos => currentTodos.map(t => t.id === id ? {...t, ...newData} : t)] *)
Definition mapUpdate (i : jsstr) (newData : NewData)
    (currentTodos : list Todo) : list Todo :=
  (λ t, if decide (id t = i) then spread t newData else t) <$> currentTodos.

(** [currentTodos => currentTodos.filter(t => t.id !== id)] *)
Definition filterOut (i : jsstr) (currentTodos : list Todo) : list Todo :=
  filter (λ t, id t ≠ i) currentTodos.

(** [todos.find(t => t.id === id)] *)
Fixpoint find (i : jsstr) (l : list Todo) : option Todo :=
  match l with
  | [] => None
  | t :: l' => if decide (id t = i) then Some t else find i l'
  end.

(** ** The persisted store: [useLocalStorage]

    [window.localStorage] is a finite map from keys to strings.
    [JSON.parse], [JSON.stringify] and the storage quota belong to the
    browser: they are parameters. [JSON_parse] answers [None] where
    [JSON.parse] throws; [quotaExceeded] says when [setItem] throws. *)

Section Store.
Context {V : Type}.
Variable JSON_parse : jsstr → option V.
Variable JSON_stringify : V → jsstr.
Variable quotaExceeded : gmap jsstr jsstr → jsstr → jsstr → bool.

(** The lazy initializer of [storedValue]: [getItem] answers [null]
    for an absent key, [item ? JSON.parse(item) : initialValue] sends a
    falsy item to the default, and the [catch] does the same for an
    item that does not parse. *)
Definition useLocalStorage_init (ls : gmap jsstr jsstr)
    (key : jsstr) (initialValue : V) : V :=
  match ls !! key with
  | None => initialValue
  | Some item =>
      if truthy item then
        match JSON_parse item with
        | Some v => v
        | None => initialValue
        end
      else initialValue
  end.

(** [window.localStorage.setItem(key, s)]; [None] when it throws. *)
Definition setItem (ls : gmap jsstr jsstr) (key s : jsstr)
    : option (gmap jsstr jsstr) :=
  if quotaExceeded ls key s then None else Some (<[key := s]> ls).

(** [setValue(value)] with a function argument: the new value is
    computed from the [storedValue] of the render, stored in the state
    cell, then written; a failed write is caught and leaves the storage
    as it was, the state cell keeps the new value. *)
Definition setValue (key : jsstr) (value : V → V)
    (storedValue : V) (ls : gmap jsstr jsstr) : V * gmap jsstr jsstr :=
  let valueToStore := value storedValue in
  (valueToStore,
   match setItem ls key (JSON_stringify valueToStore) with
   | Some ls' => ls'
   | None => ls
   end).
End Store.

(** ** The state of [App] and of [AddEditModal] *)

Inductive Mode := ModeNew | ModeEdit.

Record Modal := mkModal {
  isOpen : bool;
  mode : Mode;
  todo : option Todo
}.

Record DeleteModal := mkDeleteModal {
  del_isOpen : bool;
  del_id : option jsstr
}.

Record Toast := mkToast {
  isShow : bool;
  message : jsstr
}.

Record App := mkApp {
  todos : list Todo;
  modal : Modal;
  deleteModal : DeleteModal;
  toast : Toast;
  localStorage : gmap jsstr jsstr
}.

(** The two controlled inputs of the add/edit form. *)
Record Form := mkForm {
  form_text : jsstr;
  form_priority : jsstr
}.

Definition todo_list_demo : jsstr := js "todo_list_demo".

(** The default handed to [useLocalStorage] by [App]; the two ids are
    the two draws of [crypto.randomUUID()]. *)
Definition seedTodos (uuid1 uuid2 : jsstr) : list Todo :=
  [ {| id := uuid1; text := js "Learn React Hooks";
       done := false; priority := js "normal" |};
    {| id := uuid2; text := js "Do morning exercise";
       done := true; priority := js "low" |} ].

(** What the handlers take from the browser: [JSON.parse] and
    [JSON.stringify] on task lists, the quota of the storage, and
    [String.prototype.toLowerCase]. *)
Class Browser := {
  JSON_parse : jsstr → option (list Todo);
  JSON_stringify : list Todo → jsstr;
  quotaExceeded : gmap jsstr jsstr → jsstr → jsstr → bool;
  toLowerCase : jsstr → jsstr
}.

Section Handlers.
Context `{Browser}.

(** The first render of [App] over a given storage. *)
Definition App_init (ls : gmap jsstr jsstr) (uuid1 uuid2 : jsstr) : App :=
  {| todos := useLocalStorage_init JSON_parse ls todo_list_demo
                (seedTodos uuid1 uuid2);
     modal := {| isOpen := false; mode := ModeNew; todo := None |};
     deleteModal := {| del_isOpen := false; del_id := None |};
     toast := {| isShow := false; message := [] |};
     localStorage := ls |}.

(** [setTodos(updater)] *)
Definition setTodos (updater : list Todo → list Todo) (app : App) : App :=
  let r := setValue JSON_stringify quotaExceeded todo_list_demo updater
             (todos app) (localStorage app) in
  {| todos := r.1; modal := modal app; deleteModal := deleteModal app;
     toast := toast app; localStorage := r.2 |}.

(** [showToast(message)]: the toast is shown at once; the timeout that
    hides it three seconds later is not part of the state here. *)
Definition showToast (msg : jsstr) (app : App) : App :=
  {| todos := todos app; modal := modal app;
     deleteModal := deleteModal app;
     toast := {| isShow := true; message := msg |};
     localStorage := localStorage app |}.

Definition handleCloseModal (app : App) : App :=
  {| todos := todos app;
     modal := {| isOpen := false; mode := ModeNew; todo := None |};
     deleteModal := deleteModal app; toast := toast app;
     localStorage := localStorage app |}.

Definition handleOpenModal (m : Mode) (t : option Todo) (app : App) : App :=
  {| todos := todos app;
     modal := {| isOpen := true; mode := m; todo := t |};
     deleteModal := deleteModal app; toast := toast app;
     localStorage := localStorage app |}.

Definition handleOpenDeleteModal (i : jsstr) (app : App) : App :=
  {| todos := todos app; modal := modal app;
     deleteModal := {| del_isOpen := true; del_id := Some i |};
     toast := toast app; localStorage := localStorage app |}.

Definition handleCloseDeleteModal (app : App) : App :=
  {| todos := todos app; modal := modal app;
     deleteModal := {| del_isOpen := false; del_id := None |};
     toast := toast app; localStorage := localStorage app |}.

Definition handleAddTodo (uuid : jsstr) (txt prio : jsstr) (app : App) : App :=
  let newTodo :=
    {| id := uuid; text := trim txt; done := false; priority := prio |} in
  showToast (js "Task added!") (setTodos (prepend newTodo) app).

Definition handleUpdateTodo (i : jsstr) (newData : NewData) (app : App) : App :=
  showToast (js "Task updated!") (setTodos (mapUpdate i newData) app).

Definition handleDeleteTodo (i : jsstr) (app : App) : App :=
  showToast (js "Task deleted.")
    (handleCloseDeleteModal (setTodos (filterOut i) app)).

Definition handleToggleDone (i : jsstr) (app : App) : App :=
  match find i (todos app) with
  | Some t => handleUpdateTodo i (nd_done_only (negb (done t))) app
  | None => app
  end.

(** [handleSubmit] of [AddEditModal], with [onAdd], [onUpdate] and
    [onClose] bound as [App] binds them. [uuid] is the identifier the
    add path would draw. In edit mode [modal.todo.id] throws when
    [modal.todo] is [null]: the result is then [None]. *)
Definition handleSubmit (uuid : jsstr) (form : Form) (app : App)
    : option App :=
  if negb (truthy (trim (form_text form))) then Some app
  else
    match mode (modal app) with
    | ModeEdit =>
        match todo (modal app) with
        | Some t =>
            Some (handleCloseModal
                    (handleUpdateTodo (id t)
                       (nd_text_priority (form_text form)
                          (form_priority form)) app))
        | None => None
        end
    | ModeNew =>
        Some (handleCloseModal
                (handleAddTodo uuid (form_text form)
                   (form_priority form) app))
    end.
End Handlers.

(** ** The filter engine: [filteredTodos] *)

Section Filter.
Context `{Browser}.

(** The callback of [todos.filter]. *)
Definition keeps (statusFilter debouncedSearchTerm : jsstr) (t : Todo)
    : bool :=
  if bool_decide (statusFilter = js "active") && done t then false
  else if bool_decide (statusFilter = js "completed") && negb (done t)
  then false
  else if truthy debouncedSearchTerm
          && negb (includes (toLowerCase (text t))
                     (toLowerCase debouncedSearchTerm))
  then false
  else true.

Definition filteredTodos (tds : list Todo)
    (statusFilter debouncedSearchTerm : jsstr) : list Todo :=
  filter (λ t, keeps statusFilter debouncedSearchTerm t = true) tds.
End Filter.

(** The filter engine in the words of its specification: a task is
    visible when it passes the status filter and the search. *)
Section Visible.
Context `{Browser}.

(** [active] keeps the tasks that are not done, [completed] those that
    are, anything else ([all]) keeps every task. *)
Definition status_passes (statusFilter : jsstr) (t : Todo) : Prop :=
  (statusFilter = js "active" → done t = false) ∧
  (statusFilter = js "completed" → done t = true).

(** [term] occurs in [txt] once the case of both is folded. *)
Definition ci_substring (term txt : jsstr) : Prop :=
  ∃ pre post, toLowerCase txt = pre ++ toLowerCase term ++ post.

(** The empty term matches everything. *)
Definition search_passes (term : jsstr) (t : Todo) : Prop :=
  term = [] ∨ ci_substring term (text t).

Definition visible_pred (statusFilter term : jsstr) (t : Todo) : Prop :=
  status_passes statusFilter t ∧ search_passes term t.
End Visible.

(** ** Sequences of repository operations *)

Inductive Action :=
| Add (uuid txt prio : jsstr)
| Update (i : jsstr) (newData : NewData)
| Remove (i : jsstr)
| ToggleDone (i : jsstr).

Section Run.
Context `{Browser}.

Definition step (app : App) (a : Action) : App :=
  match a with
  | Add uuid txt prio => handleAddTodo uuid txt prio app
  | Update i newData => handleUpdateTodo i newData app
  | Remove i => handleDeleteTodo i app
  | ToggleDone i => handleToggleDone i app
  end.

Definition run (app : App) (acts : list Action) : App :=
  foldl step app acts.

(** Every identifier drawn by an [Add] is fresh when it is drawn. *)
Fixpoint fresh_draws (app : App) (acts : list Action) : Prop :=
  match acts with
  | [] => True
  | a :: rest =>
      match a with
      | Add uuid _ _ => uuid ∉ ids (todos app)
      | _ => True
      end ∧ fresh_draws (step app a) rest
  end.

(** No [Update] carries an [id] key. *)
Definition keeps_id (a : Action) : Prop :=
  match a with
  | Update _ newData => nd_id newData = None
  | _ => True
  end.
End Run.

(** The invariant on task texts: not empty, nothing to trim. *)
Definition trimmed_nonempty (s : jsstr) : Prop :=
  s ≠ [] ∧ trim s = s.

(** ** The debouncer: [useDebounce]

    Time is in milliseconds. The hook owns the value and the delay of
    its last render (the dependencies of its effect), the state cell
    [debouncedValue] and at most one pending timeout, kept as its due time and the value its
    callback closes over. A timeout runs at its due time; when a render
    and a due timeout meet at the same instant the timeout runs first. *)

Module Debounce.
Section Hook.
Context {A : Type} `{EqDecision A}.

Record Hook := mkHook {
  value : A;
  delay : Z;
  debouncedValue : A;
  handler : option (Z * A)
}.

(** The first render: [useState(value)], then the effect sets the
    timeout. *)
Definition mount (d : Z) (v : A) (now : Z) : Hook :=
  {| value := v; delay := d; debouncedValue := v;
     handler := Some ((now + d)%Z, v) |}.

(** A later render with input [v] and delay [d]: when a dependency
    changed, the cleanup clears the pending timeout and the effect sets a
    new one. *)
Definition render (d : Z) (v : A) (now : Z) (h : Hook) : Hook :=
  if decide (v = value h ∧ d = delay h) then h
  else {| value := v; delay := d; debouncedValue := debouncedValue h;
          handler := Some ((now + d)%Z, v) |}.

(** The clock reaches [now]: a due timeout calls
    [setDebouncedValue(value)] and is gone. *)
Definition tick (now : Z) (h : Hook) : Hook :=
  match handler h with
  | Some (due, v) =>
      if decide (due ≤ now)%Z
      then {| value := value h; delay := delay h; debouncedValue := v;
              handler := None |}
      else h
  | None => h
  end.

(** Unmounting runs the cleanup. *)
Definition unmount (h : Hook) : Hook :=
  {| value := value h; delay := delay h;
     debouncedValue := debouncedValue h; handler := None |}.

(** The hook fed a series of timed inputs, in order. *)
Fixpoint feed (d : Z) (inputs : list (Z * A)) (h : Hook) : Hook :=
  match inputs with
  | [] => h
  | (t, v) :: rest => feed d rest (render d v t (tick t h))
  end.

(** What the hook returns at time [t], having been fed the inputs up
    to [t]. *)
Definition output_at (d : Z) (h0 : Hook) (inputs : list (Z * A))
    (t : Z) : A :=
  debouncedValue
    (tick t (feed d (filter (λ p, (p.1 ≤ t)%Z) inputs) h0)).

(** The inputs seen by time [t], the mounting value first. *)
Definition history (v0 : A) (inputs : list (Z * A)) (t : Z) : list A :=
  v0 :: (snd <$> filter (λ p, (p.1 ≤ t)%Z) inputs).

(** The output, the last input and the value a pending timeout would
    deliver all come from the list [seen]. *)
Definition from_inputs (seen : list A) (h : Hook) : Prop :=
  debouncedValue h ∈ seen ∧
  value h ∈ seen ∧
  ∀ due v, handler h = Some (due, v) → v ∈ seen.

(** The output is still [v0], and a pending timeout either delivers [v0]
    or is not due before [lo]. *)
Definition quiet (v0 : A) (lo : Z) (h : Hook) : Prop :=
  debouncedValue h = v0 ∧
  ∀ due v, handler h = Some (due, v) → v = v0 ∨ (lo ≤ due)%Z.
End Hook.
Arguments Hook : clear implicits.
End Debounce.

(** ** The user interface: the events the markup wires to the handlers

    [AddEditModal] owns the two form fields; its effect on [modal] runs
    after every render in which [setModal] was called. *)

Definition emptyForm : Form :=
  {| form_text := []; form_priority := js "normal" |}.

(** The effect of [AddEditModal]: an open dialog in edit mode with a
    task shows that task, anything else an empty form. *)
Definition syncForm (m : Modal) : Form :=
  if isOpen m then
    match mode m, todo m with
    | ModeEdit, Some t =>
        {| form_text := text t; form_priority := priority t |}
    | _, _ => emptyForm
    end
  else emptyForm.

Record UI := mkUI {
  ui_app : App;
  ui_form : Form
}.

(** The clicks and edits the rendered elements answer to. [ClickSave]
    carries the identifier [crypto.randomUUID()] would draw. *)
Inductive Event :=
| ClickAdd
| ClickEdit (t : Todo)
| ChangeText (s : jsstr)
| ChangePriority (p : jsstr)
| ClickCancel
| ClickSave (uuid : jsstr)
| ClickToggle (i : jsstr)
| ClickDelete (i : jsstr)
| ClickCancelDelete
| ClickConfirmDelete.

Section Interface.
Context `{Browser}.

(** A render after [setModal]: the effect of [AddEditModal] refills the
    form. *)
Definition afterModalChange (app : App) : UI :=
  {| ui_app := app; ui_form := syncForm (modal app) |}.

(** [onConfirm(modal.id)] of [DeleteModal]. With [null] for an id the
    test [t.id !== id] holds for every record. *)
Definition confirmDelete (app : App) : App :=
  match del_id (deleteModal app) with
  | Some i => handleDeleteTodo i app
  | None =>
      showToast (js "Task deleted.")
        (handleCloseDeleteModal (setTodos (λ l, l) app))
  end.

(** One event; [None] when its handler throws. *)
Definition dispatch (ui : UI) (e : Event) : option UI :=
  let app := ui_app ui in
  let form := ui_form ui in
  match e with
  | ClickAdd => Some (afterModalChange (handleOpenModal ModeNew None app))
  | ClickEdit t =>
      Some (afterModalChange (handleOpenModal ModeEdit (Some t) app))
  | ChangeText s =>
      Some {| ui_app := app;
              ui_form := {| form_text := s;
                            form_priority := form_priority form |} |}
  | ChangePriority p =>
      Some {| ui_app := app;
              ui_form := {| form_text := form_text form;
                            form_priority := p |} |}
  | ClickCancel => Some (afterModalChange (handleCloseModal app))
  | ClickSave uuid =>
      if negb (truthy (trim (form_text form))) then Some ui
      else afterModalChange <$> handleSubmit uuid form app
  | ClickToggle i =>
      Some {| ui_app := handleToggleDone i app; ui_form := form |}
  | ClickDelete i =>
      Some {| ui_app := handleOpenDeleteModal i app; ui_form := form |}
  | ClickCancelDelete =>
      Some {| ui_app := handleCloseDeleteModal app; ui_form := form |}
  | ClickConfirmDelete =>
      Some {| ui_app := confirmDelete app; ui_form := form |}
  end.

(** The element that raises the event is rendered: the buttons of a
    task exist for the tasks of the collection, the form and its buttons
    while the dialog is open, the two buttons of the delete dialog while
    it is open. The identifier a save would draw is fresh. *)
Definition enabled (ui : UI) (e : Event) : Prop :=
  let app := ui_app ui in
  match e with
  | ClickAdd => True
  | ClickEdit t => t ∈ todos app
  | ClickToggle i | ClickDelete i => i ∈ ids (todos app)
  | ChangeText _ | ChangePriority _ | ClickCancel =>
      isOpen (modal app) = true
  | ClickSave uuid =>
      isOpen (modal app) = true ∧ uuid ∉ ids (todos app)
  | ClickCancelDelete | ClickConfirmDelete =>
      del_isOpen (deleteModal app) = true
  end.

(** A series of events, each raised in the state the previous ones
    left; [None] as soon as a handler throws. *)
Fixpoint runUI (ui : UI) (evs : list Event) : option UI :=
  match evs with
  | [] => Some ui
  | e :: rest =>
      match dispatch ui e with
      | Some ui' => runUI ui' rest
      | None => None
      end
  end.

Fixpoint feasible (ui : UI) (evs : list Event) : Prop :=
  match evs with
  | [] => True
  | e :: rest =>
      enabled ui e ∧
      match dispatch ui e with
      | Some ui' => feasible ui' rest
      | None => True
      end
  end.

(** A dialog in edit mode has its task. *)
Definition modal_ok (ui : UI) : Prop :=
  mode (modal (ui_app ui)) = ModeEdit → is_Some (todo (modal (ui_app ui))).

(** The ids of the collection are unique. *)
Definition unique_ids (ui : UI) : Prop :=
  NoDup (ids (todos (ui_app ui))).

(** No task has a blank text. *)
Definition nonblank (l : list Todo) : Prop :=
  Forall (λ t, trim (text t) ≠ []) l.

(** The storage holds the serialization of the collection. *)
Definition synced (app : App) : Prop :=
  localStorage app !! todo_list_demo = Some (JSON_stringify (todos app)).
End Interface.

(** ** The toast and its timeouts: [showToast]

    Every call of [showToast] sets a timeout of its own and none is ever
    cleared: the state keeps the due times of those still pending. Any of
    them hides the toast when it runs. *)

Module Toasts.
Record State := mkState {
  shown : Toast;
  pending : list Z
}.

Definition hidden : Toast := {| isShow := false; message := [] |}.

(** [showToast(message)] called at time [now]. *)
Definition showToast (now : Z) (msg : jsstr) (st : State) : State :=
  {| shown := {| isShow := true; message := msg |};
     pending := pending st ++ [(now + 3000)%Z] |}.

(** The clock reaches [now]: the timeouts that are due run. *)
Definition elapse (now : Z) (st : State) : State :=
  if decide (Exists (λ due, (due ≤ now)%Z) (pending st))
  then {| shown := hidden;
          pending := filter (λ due, (now < due)%Z) (pending st) |}
  else st.

(** Nothing shown, nothing pending. *)
Definition idle : State := {| shown := hidden; pending := [] |}.
End Toasts.

(** ** The theme: [useTheme]

    The flag is a string kept under ['theme_dark'] through
    [useLocalStorage]; the effect mirrors it onto the class list of the
    document root, a set of tokens. *)

Module Theme.
Section Theme.
Variable JSON_parse : jsstr → option jsstr.
Variable JSON_stringify : jsstr → jsstr.
Variable quotaExceeded : gmap jsstr jsstr → jsstr → jsstr → bool.

Record State := mkState {
  theme : jsstr;
  classList : gset jsstr;
  storage : gmap jsstr jsstr
}.

Definition theme_dark : jsstr := js "theme_dark".
Definition dark_theme : jsstr := js "dark-theme".

(** The effect on [theme]. *)
Definition effect (st : State) : State :=
  {| theme := theme st;
     classList :=
       if decide (theme st = js "1")
       then classList st ∪ {[ dark_theme ]}
       else classList st ∖ {[ dark_theme ]};
     storage := storage st |}.

(** The first render over a storage and a document root. *)
Definition init (ls : gmap jsstr jsstr) (classes : gset jsstr) : State :=
  effect {| theme := useLocalStorage_init JSON_parse ls theme_dark (js "0");
            classList := classes; storage := ls |}.

(** [t => t === '1' ? '0' : '1'] *)
Definition flip (t : jsstr) : jsstr :=
  if decide (t = js "1") then js "0" else js "1".

(** [toggleTheme()], then the effect of the render it causes. *)
Definition toggleTheme (st : State) : State :=
  let r := setValue JSON_stringify quotaExceeded theme_dark flip
             (theme st) (storage st) in
  effect {| theme := r.1; classList := classList st; storage := r.2 |}.
End Theme.
End Theme.

(** ** The whole page: every element that answers to the user

    Besides the events of the tasks and the two dialogs, the page has
    the theme button, the search box and the status select. The theme
    flag is kept in the same [window.localStorage] as the collection. *)

Inductive PageEvent :=
| OnTask (e : Event)
| ClickTheme
| ChangeSearch (s : jsstr)
| ChangeFilter (f : jsstr).

Record Page := mkPage {
  pg_ui : UI;
  pg_theme : jsstr;
  pg_classList : gset jsstr;
  pg_searchTerm : jsstr;
  pg_filter : jsstr
}.

(** The application state over another content of the storage. *)
Definition withStorage (ls : gmap jsstr jsstr) (app : App) : App :=
  {| todos := todos app; modal := modal app;
     deleteModal := deleteModal app; toast := toast app;
     localStorage := ls |}.

Section PageEvents.
Context `{Browser}.
(** [JSON.stringify] on the theme flag, a string. *)
Variable JSON_stringify_flag : jsstr → jsstr.

(** One event of the page; [None] when its handler throws. *)
Definition pageDispatch (pg : Page) (e : PageEvent) : option Page :=
  match e with
  | OnTask e' =>
      (λ ui', {| pg_ui := ui'; pg_theme := pg_theme pg;
                 pg_classList := pg_classList pg;
                 pg_searchTerm := pg_searchTerm pg;
                 pg_filter := pg_filter pg |})
      <$> dispatch (pg_ui pg) e'
  | ClickTheme =>
      let st :=
        Theme.toggleTheme JSON_stringify_flag quotaExceeded
          (Theme.mkState (pg_theme pg) (pg_classList pg)
             (localStorage (ui_app (pg_ui pg)))) in
      Some {| pg_ui :=
                {| ui_app := withStorage (Theme.storage st)
                               (ui_app (pg_ui pg));
                   ui_form := ui_form (pg_ui pg) |};
              pg_theme := Theme.theme st;
              pg_classList := Theme.classList st;
              pg_searchTerm := pg_searchTerm pg;
              pg_filter := pg_filter pg |}
  | ChangeSearch s =>
      Some {| pg_ui := pg_ui pg; pg_theme := pg_theme pg;
              pg_classList := pg_classList pg;
              pg_searchTerm := s; pg_filter := pg_filter pg |}
  | ChangeFilter f =>
      Some {| pg_ui := pg_ui pg; pg_theme := pg_theme pg;
              pg_classList := pg_classList pg;
              pg_searchTerm := pg_searchTerm pg; pg_filter := f |}
  end.
End PageEvents.

(** ** Settling of the debouncer *)

(** The value of the last input, the mounting value when there is none. *)
Definition last_input {A : Type} (v0 : A) (inputs : list (Z * A)) : A :=
  default v0 (last (snd <$> inputs)).

(** The hook runs with delay [d]; either nothing is pending and the
    output is the last input, or a timeout due by [bound] will deliver
    the last input. *)
Definition settling {A : Type} (d bound : Z) (h : Debounce.Hook A) : Prop :=
  Debounce.delay h = d ∧
  ((Debounce.handler h = None ∧
    Debounce.debouncedValue h = Debounce.value h) ∨
   ∃ due, Debounce.handler h = Some (due, Debounce.value h) ∧
          (due ≤ bound)%Z).

(** ** Instances for examples *)

(** A serializer without escaping, enough for plain texts. *)
Definition quoted (s : jsstr) : jsstr := [0x22] ++ s ++ [0x22].

Definition demoStringifyTodo (t : Todo) : jsstr :=
  js "{" ++ quoted (js "id") ++ js ":" ++ quoted (id t)
  ++ js "," ++ quoted (js "text") ++ js ":" ++ quoted (text t)
  ++ js "," ++ quoted (js "done") ++ js ":"
  ++ (if done t then js "true" else js "false")
  ++ js "," ++ quoted (js "priority") ++ js ":" ++ quoted (priority t)
  ++ js "}".

Fixpoint commaSeparated (l : list jsstr) : jsstr :=
  match l with
  | [] => []
  | [s] => s
  | s :: rest => s ++ js "," ++ commaSeparated rest
  end.

Definition demoStringify (l : list Todo) : jsstr :=
  js "[" ++ commaSeparated (demoStringifyTodo <$> l) ++ js "]".

(** A parser that knows the empty array and throws on anything else. *)
Definition demoParse (s : jsstr) : option (list Todo) :=
  if decide (s = js "[]") then Some [] else None.

(** A storage that never fills up. *)
Definition noQuota (ls : gmap jsstr jsstr) (key s : jsstr) : bool := false.

(** An application state whose storage holds the collection, nothing
    open or shown. *)
Definition storedApp (l : list Todo) : App :=
  {| todos := l;
     modal := {| isOpen := false; mode := ModeNew; todo := None |};
     deleteModal := {| del_isOpen := false; del_id := None |};
     toast := {| isShow := false; message := [] |};
     localStorage := {[ todo_list_demo := demoStringify l ]} |}.

(** An application state over an empty storage, nothing open or shown. *)
Definition demoApp (l : list Todo) : App :=
  {| todos := l;
     modal := {| isOpen := false; mode := ModeNew; todo := None |};
     deleteModal := {| del_isOpen := false; del_id := None |};
     toast := {| isShow := false; message := [] |};
     localStorage := ∅ |}.

(** Two tasks. *)
Definition milk : Todo :=
  {| id := js "1"; text := js "Buy milk"; done := false;
     priority := js "high" |}.

Definition dog : Todo :=
  {| id := js "2"; text := js "Walk dog"; done := true;
     priority := js "low" |}.

(** The object [{ id: "2" }]. *)
Definition nd_id_2 : NewData :=
  {| nd_id := Some (js "2"); nd_text := None;
     nd_done := None; nd_priority := None |}.

(** Lower-casing of the ASCII letters, the instance used in examples. *)
Definition asciiLower (s : jsstr) : jsstr :=
  (λ c, if bool_decide (0x41 ≤ c ≤ 0x5A) then c + 0x20 else c) <$> s.

#[global] Instance demoBrowser : Browser :=
  {| JSON_parse := demoParse;
     JSON_stringify := demoStringify;
     quotaExceeded := noQuota;
     toLowerCase := asciiLower |}.

(** The same browser with a storage that refuses every write. *)
Definition fullBrowser : Browser :=
  {| JSON_parse := demoParse;
     JSON_stringify := demoStringify;
     quotaExceeded := λ _ _ _, true;
     toLowerCase := asciiLower |}.


(** A decidable statement about concrete data, settled by running its
    decision procedure. *)
Ltac decide_by_computation :=
  apply (bool_decide_unpack _); vm_compute; exact I.

(** * Facts *)

(** ** Examples *)

Example trim_buy_milk : trim (js " Buy milk ") = js "Buy milk".
Proof. reflexivity. Qed.

Example search_MILK :
  filteredTodos [milk; dog] (js "all") (js "MILK") = [milk].
Proof. reflexivity. Qed.

(** ** Strings *)

Lemma startsWith_prefix (s p : jsstr) :
  startsWith s p = true ↔ ∃ post, s = p ++ post.
Proof.
  revert s. induction p as [|a p IH]; intros s.
  - destruct s; simpl; (split; [intros _; by eexists | done]).
  - destruct s as [|b s]; simpl.
    + split; [done | intros [post Hpost]; discriminate].
    + rewrite andb_true_iff, bool_decide_eq_true, IH. split.
      * intros [-> [post ->]]. by exists post.
      * intros [post Hpost]. injection Hpost as -> ->. eauto.
Qed.

Lemma includes_infix (s p : jsstr) :
  includes s p = true ↔ ∃ pre post, s = pre ++ p ++ post.
Proof.
  induction s as [|b s IH]; cbn [includes].
  - rewrite orb_false_r, startsWith_prefix. split.
    + intros [post ->]. by exists [], post.
    + intros [pre [post Heq]]. symmetry in Heq.
      apply app_eq_nil in Heq as [-> Heq].
      apply app_eq_nil in Heq as [-> ->]. by exists [].
  - rewrite orb_true_iff, startsWith_prefix, IH. split.
    + intros [[post ->] | [pre [post ->]]].
      * by exists [], post.
      * by exists (b :: pre), post.
    + intros [[|c pre] [post Heq]]; simpl in Heq.
      * left. by exists post.
      * right. injection Heq as -> ->. by exists pre, post.
Qed.

Lemma includes_nil (s : jsstr) : includes s [] = true.
Proof. apply includes_infix. by exists [], s. Qed.

Lemma trimStart_app_solid (l r : jsstr) (c : N) :
  isWhiteSpace c = false →
  trimStart (l ++ c :: r) = trimStart l ++ c :: r.
Proof.
  intros Hc. induction l as [|a l IH]; simpl.
  - by rewrite Hc.
  - destruct (isWhiteSpace a); [exact IH | done].
Qed.

Lemma trimStart_idempotent (s : jsstr) :
  trimStart (trimStart s) = trimStart s.
Proof.
  induction s as [|a s IH]; simpl; [done|].
  destruct (isWhiteSpace a) eqn:Ha; [exact IH|]. simpl. by rewrite Ha.
Qed.

Lemma trimStart_head (s : jsstr) :
  trimStart s = [] ∨
  ∃ c r, trimStart s = c :: r ∧ isWhiteSpace c = false.
Proof.
  induction s as [|a s IH]; simpl; [by left|].
  destruct (isWhiteSpace a) eqn:Ha; [exact IH|]. right. eauto.
Qed.

Lemma trimEnd_cons_solid (c : N) (r : jsstr) :
  isWhiteSpace c = false → trimEnd (c :: r) = c :: trimEnd r.
Proof.
  intros Hc. unfold trimEnd. rewrite reverse_cons.
  change (reverse r ++ [c]) with (reverse r ++ c :: []).
  rewrite trimStart_app_solid by done.
  by rewrite reverse_app.
Qed.

Lemma trimEnd_idempotent (s : jsstr) : trimEnd (trimEnd s) = trimEnd s.
Proof.
  unfold trimEnd. by rewrite reverse_involutive, trimStart_idempotent.
Qed.

Lemma trim_idempotent (s : jsstr) : trim (trim s) = trim s.
Proof.
  unfold trim. destruct (trimStart_head s) as [-> | (c & r & -> & Hc)].
  - reflexivity.
  - rewrite trimEnd_cons_solid by done. simpl. rewrite Hc.
    rewrite <- trimEnd_cons_solid by done. apply trimEnd_idempotent.
Qed.

Lemma truthy_true (s : jsstr) : truthy s = true ↔ s ≠ [].
Proof. destruct s; simpl; split; done. Qed.

(** ** The updater callbacks *)

Lemma find_Some (i : jsstr) (l : list Todo) (t : Todo) :
  find i l = Some t → t ∈ l ∧ id t = i.
Proof.
  induction l as [|u l IH]; csimpl; [done|].
  case_decide as Hu.
  - intros [= ->]. split; [left | done].
  - intros Hf. destruct (IH Hf). split; [by right | done].
Qed.

Lemma find_None (i : jsstr) (l : list Todo) :
  find i l = None ↔ i ∉ ids l.
Proof.
  unfold ids. induction l as [|u l IH]; csimpl.
  - split; [intros _; apply not_elem_of_nil | done].
  - rewrite not_elem_of_cons. case_decide as Hu.
    + split; [done | intros [Hne _]; congruence].
    + rewrite IH. split; [intros ?; split; [congruence | done] | by intros [_ ?]].
Qed.

Lemma find_is_Some (i : jsstr) (l : list Todo) :
  i ∈ ids l → ∃ t, find i l = Some t.
Proof.
  intros Hi. destruct (find i l) as [t|] eqn:Hf; [by exists t|].
  by apply find_None in Hf.
Qed.

Lemma mapUpdate_absent (i : jsstr) (newData : NewData) (l : list Todo) :
  i ∉ ids l → mapUpdate i newData l = l.
Proof.
  unfold mapUpdate, ids. induction l as [|u l IH]; csimpl; [done|].
  rewrite not_elem_of_cons. intros [Hne Hl].
  rewrite IH by done. case_decide; [congruence | done].
Qed.

Lemma filterOut_absent (i : jsstr) (l : list Todo) :
  i ∉ ids l → filterOut i l = l.
Proof.
  unfold filterOut, ids. induction l as [|u l IH]; csimpl; [done|].
  rewrite not_elem_of_cons. intros [Hne Hl].
  rewrite filter_cons_True by congruence. by rewrite IH.
Qed.

Lemma id_spread (t : Todo) (newData : NewData) :
  nd_id newData = None → id (spread t newData) = id t.
Proof. intros Hnd. simpl. by rewrite Hnd. Qed.

Lemma ids_mapUpdate (i : jsstr) (newData : NewData) (l : list Todo) :
  nd_id newData = None → ids (mapUpdate i newData l) = ids l.
Proof.
  intros Hnd. unfold ids, mapUpdate. rewrite <- list_fmap_compose.
  apply list_fmap_ext. intros k u _. simpl.
  case_decide; [by apply id_spread | done].
Qed.

Lemma lookup_mapUpdate (i : jsstr) (newData : NewData) (l : list Todo)
    (k : nat) :
  mapUpdate i newData l !! k
  = (λ t, if decide (id t = i) then spread t newData else t) <$> l !! k.
Proof. unfold mapUpdate. apply list_lookup_fmap. Qed.

Lemma NoDup_ids_filterOut (i : jsstr) (l : list Todo) :
  NoDup (ids l) → NoDup (ids (filterOut i l)).
Proof.
  unfold ids, filterOut. intros Hl. eapply sublist_NoDup; [exact Hl|].
  apply fmap_sublist, sublist_filter.
Qed.

Lemma not_elem_of_ids_filterOut (i : jsstr) (l : list Todo) :
  i ∉ ids (filterOut i l).
Proof.
  unfold ids, filterOut. intros Hin.
  apply list_elem_of_fmap in Hin as (u & -> & Hu).
  apply list_elem_of_filter in Hu as [Hne _]. done.
Qed.

Lemma mapUpdate_done_twice (i : jsstr) (b1 b2 : bool) (l : list Todo) :
  mapUpdate i (nd_done_only b2) (mapUpdate i (nd_done_only b1) l)
  = mapUpdate i (nd_done_only b2) l.
Proof.
  unfold mapUpdate. rewrite <- list_fmap_compose.
  apply list_fmap_ext. intros k u _. simpl.
  destruct (decide (id u = i)) as [Hu|Hu]; simpl.
  - by rewrite decide_True.
  - by rewrite decide_False.
Qed.

Lemma find_mapUpdate (i : jsstr) (newData : NewData) (l : list Todo)
    (t : Todo) :
  nd_id newData = None → find i l = Some t →
  find i (mapUpdate i newData l) = Some (spread t newData).
Proof.
  intros Hnd. unfold mapUpdate.
  induction l as [|u l IH]; csimpl; [done|].
  destruct (decide (id u = i)) as [Hu|Hu].
  - intros [= ->]. by rewrite decide_True by (by rewrite id_spread).
  - intros Hf. rewrite decide_False by done. by apply IH.
Qed.

Lemma unique_find (i : jsstr) (l : list Todo) (t u : Todo) :
  NoDup (ids l) → find i l = Some t → u ∈ l → id u = i → u = t.
Proof.
  unfold ids. induction l as [|v l IH]; csimpl; [done|].
  rewrite NoDup_cons. intros [Hv Hl].
  destruct (decide (id v = i)) as [Hvi|Hvi].
  - intros [= ->] Hu Hui. apply elem_of_cons in Hu as [-> | Hu]; [done|].
    exfalso. apply Hv. rewrite Hvi, <- Hui. by apply list_elem_of_fmap_2.
  - intros Hf Hu Hui. apply elem_of_cons in Hu as [-> | Hu]; [done|].
    by apply IH.
Qed.

Lemma spread_done_same (t : Todo) : spread t (nd_done_only (done t)) = t.
Proof. by destruct t. Qed.

(** ** The handlers of [App] *)

Section Repository.
Context `{Browser}.

Lemma todos_handleAddTodo (uuid txt prio : jsstr) (app : App) :
  todos (handleAddTodo uuid txt prio app)
  = {| id := uuid; text := trim txt; done := false; priority := prio |}
    :: todos app.
Proof. reflexivity. Qed.

Lemma todos_handleUpdateTodo (i : jsstr) (newData : NewData) (app : App) :
  todos (handleUpdateTodo i newData app) = mapUpdate i newData (todos app).
Proof. reflexivity. Qed.

Lemma todos_handleDeleteTodo (i : jsstr) (app : App) :
  todos (handleDeleteTodo i app) = filterOut i (todos app).
Proof. reflexivity. Qed.

Lemma todos_handleToggleDone (i : jsstr) (app : App) (t : Todo) :
  find i (todos app) = Some t →
  todos (handleToggleDone i app)
  = mapUpdate i (nd_done_only (negb (done t))) (todos app).
Proof. unfold handleToggleDone. by intros ->. Qed.

Lemma toast_handleUpdateTodo (i : jsstr) (newData : NewData) (app : App) :
  toast (handleUpdateTodo i newData app)
  = {| isShow := true; message := js "Task updated!" |}.
Proof. reflexivity. Qed.

Lemma toast_handleDeleteTodo (i : jsstr) (app : App) :
  toast (handleDeleteTodo i app)
  = {| isShow := true; message := js "Task deleted." |}.
Proof. reflexivity. Qed.

(** C2. Submitting the form with a text whose trim is empty changes
    nothing, whatever the priority and whatever the mode of the dialog:
    no record is created, nothing is written to the storage, the state
    after is the state before. *)
Theorem submit_blank_is_noop (uuid : jsstr) (form : Form) (app : App) :
  trim (form_text form) = [] →
  handleSubmit uuid form app = Some app.
Proof. intros Hblank. unfold handleSubmit. by rewrite Hblank. Qed.

(** C3. Adding [" Buy milk "] with priority ["high"] puts a new record
    in front of the collection: its text is ["Buy milk"], it is not done,
    its priority is ["high"], its id is the identifier drawn, which is not
    the id of any record already there when the draw is fresh; the
    records behind it are the previous collection. The same holds when
    the add goes through the form. *)
Theorem add_buy_milk (uuid : jsstr) (app : App) :
  uuid ∉ ids (todos app) →
  ∃ newTodo,
    todos (handleAddTodo uuid (js " Buy milk ") (js "high") app)
    = newTodo :: todos app ∧
    text newTodo = js "Buy milk" ∧
    done newTodo = false ∧
    priority newTodo = js "high" ∧
    id newTodo = uuid ∧
    (id newTodo ∉ ids (todos app)) ∧
    (mode (modal app) = ModeNew →
     (todos <$> handleSubmit uuid
                  {| form_text := js " Buy milk ";
                     form_priority := js "high" |} app)
     = Some (newTodo :: todos app)).
Proof.
  intros Hfresh. eexists. split; [apply todos_handleAddTodo|].
  repeat split; try done.
  intros Hmode. unfold handleSubmit. by rewrite Hmode.
Qed.

(** C4, as the code has it. When the object handed to the update carries
    no [id] key, the update keeps the length and the order of the
    collection and the id at every position; the record at each position
    is the old one merged with the object when its id is the given one,
    and the old one otherwise; a record with the given id exists and is
    merged, each of its keys taken from the object when present there. *)
Theorem update_merges_in_place (i : jsstr) (newData : NewData) (app : App) :
  nd_id newData = None →
  i ∈ ids (todos app) →
  let after := todos (handleUpdateTodo i newData app) in
  length after = length (todos app) ∧
  ids after = ids (todos app) ∧
  (∀ k t, todos app !! k = Some t → id t ≠ i → after !! k = Some t) ∧
  (∀ k t, todos app !! k = Some t → id t = i →
     after !! k = Some (spread t newData)) ∧
  (∃ k t, todos app !! k = Some t ∧ id t = i ∧
     after !! k = Some (spread t newData)) ∧
  (∀ t, id (spread t newData) = id t ∧
        text (spread t newData) = default (text t) (nd_text newData) ∧
        done (spread t newData) = default (done t) (nd_done newData) ∧
        priority (spread t newData)
        = default (priority t) (nd_priority newData)).
Proof.
  intros Hnd Hi after. subst after. rewrite todos_handleUpdateTodo.
  split; [unfold mapUpdate; apply length_fmap|].
  split; [by apply ids_mapUpdate|].
  split.
  { intros k t Hk Hne. rewrite lookup_mapUpdate, Hk. simpl.
    by rewrite decide_False. }
  split.
  { intros k t Hk He. rewrite lookup_mapUpdate, Hk. simpl.
    by rewrite decide_True. }
  split.
  { apply list_elem_of_fmap in Hi as (t & Ht & Hin).
    apply list_elem_of_lookup in Hin as [k Hk].
    exists k, t. split; [done|]. split; [done|].
    rewrite lookup_mapUpdate, Hk. simpl. by rewrite decide_True. }
  intros t. split; [by apply id_spread | done].
Qed.

(** C5, as the code has it. For an id that no record carries, update,
    remove and toggle leave the collection as it is and, being total,
    throw nothing; toggle leaves the whole state as it is; update and
    remove still show their confirmation toast. *)
Theorem unknown_id_keeps_collection (i : jsstr) (newData : NewData)
    (app : App) :
  i ∉ ids (todos app) →
  todos (handleUpdateTodo i newData app) = todos app ∧
  todos (handleDeleteTodo i app) = todos app ∧
  handleToggleDone i app = app ∧
  toast (handleUpdateTodo i newData app)
  = {| isShow := true; message := js "Task updated!" |} ∧
  toast (handleDeleteTodo i app)
  = {| isShow := true; message := js "Task deleted." |}.
Proof.
  intros Hi.
  split; [by apply mapUpdate_absent|].
  split; [by apply filterOut_absent|].
  split; [|done].
  unfold handleToggleDone.
  by rewrite (proj2 (find_None i (todos app)) Hi).
Qed.

(** C7. Toggling a task twice brings back what was there. The record the
    toggle looks up has its [done] flipped by the first toggle and is
    itself again after the second; in between and after, every record
    keeps its id, text and priority at its position, and every record
    with another id is untouched; a collection whose ids are unique is,
    after the two toggles, the collection before them. *)
Theorem toggle_twice (i : jsstr) (app : App) :
  i ∈ ids (todos app) →
  let once := handleToggleDone i app in
  let twice := handleToggleDone i once in
  ∃ t,
    find i (todos app) = Some t ∧
    find i (todos once)
    = Some {| id := id t; text := text t; done := negb (done t);
              priority := priority t |} ∧
    find i (todos twice) = Some t ∧
    (∀ k u, todos app !! k = Some u → id u ≠ i →
       todos twice !! k = Some u) ∧
    (∀ k u, todos app !! k = Some u →
       ∃ u', todos twice !! k = Some u' ∧
             id u' = id u ∧ text u' = text u ∧ priority u' = priority u) ∧
    (NoDup (ids (todos app)) → todos twice = todos app).
Proof.
  intros Hi once twice.
  destruct (find_is_Some i (todos app) Hi) as [t Ht]. exists t.
  assert (Honce : todos once
                  = mapUpdate i (nd_done_only (negb (done t))) (todos app))
    by by apply todos_handleToggleDone.
  assert (Hfind1 : find i (todos once)
                   = Some (spread t (nd_done_only (negb (done t))))).
  { rewrite Honce. by apply find_mapUpdate. }
  assert (Htwice : todos twice
                   = mapUpdate i (nd_done_only (done t)) (todos app)).
  { subst twice. rewrite (todos_handleToggleDone _ _ _ Hfind1), Honce.
    rewrite mapUpdate_done_twice. simpl. by rewrite negb_involutive. }
  split; [done|]. split; [exact Hfind1|].
  split.
  { rewrite Htwice, (find_mapUpdate _ _ _ t) by done.
    by rewrite spread_done_same. }
  split.
  { intros k u Hk Hne. rewrite Htwice, lookup_mapUpdate, Hk. simpl.
    by rewrite decide_False. }
  split.
  { intros k u Hk. rewrite Htwice, lookup_mapUpdate, Hk. simpl.
    case_decide; eexists; (split; [reflexivity | done]). }
  intros Hnodup. rewrite Htwice. apply list_eq. intros k.
  rewrite lookup_mapUpdate.
  destruct (todos app !! k) as [u|] eqn:Hk; [simpl | done].
  case_decide as Hu; [|done].
  assert (u = t) as ->.
  { eapply unique_find; [done.. | | done].
    apply list_elem_of_lookup. by exists k. }
  by rewrite spread_done_same.
Qed.

(** One step keeps the ids unique. *)
Lemma step_NoDup (app : App) (a : Action) :
  NoDup (ids (todos app)) →
  fresh_draws app [a] → keeps_id a →
  NoDup (ids (todos (step app a))).
Proof.
  intros Hnodup [Hfresh _] Hkeep. destruct a as [uuid txt prio|i nd|i|i]; simpl.
  - unfold ids. csimpl. apply NoDup_cons. by split.
  - by rewrite ids_mapUpdate.
  - by apply NoDup_ids_filterOut.
  - unfold handleToggleDone. destruct (find i (todos app)); [|done].
    rewrite todos_handleUpdateTodo. by rewrite ids_mapUpdate.
Qed.

(** C1, as the code has it. From a collection with unique ids, every
    sequence of add, update, remove and toggle operations in which each
    add draws a fresh identifier and no update carries an [id] key ends
    in a collection with unique ids. *)
Theorem ids_stay_unique (app : App) (acts : list Action) :
  NoDup (ids (todos app)) →
  fresh_draws app acts →
  Forall keeps_id acts →
  NoDup (ids (todos (run app acts))).
Proof.
  revert app. induction acts as [|a acts IH]; intros app Hnodup Hfresh Hkeep.
  - done.
  - destruct Hfresh as [Hfresh Hrest].
    apply Forall_cons in Hkeep as [Ha Hacts].
    unfold run. simpl. apply IH; [|done..].
    apply step_NoDup; [done | | done]. by split.
Qed.

(** The add path stores a text that is not empty and needs no trimming. *)
Lemma submit_new_trimmed (uuid : jsstr) (form : Form) (app app' : App) :
  mode (modal app) = ModeNew →
  trim (form_text form) ≠ [] →
  handleSubmit uuid form app = Some app' →
  ∃ t, todos app' = t :: todos app ∧ trimmed_nonempty (text t).
Proof.
  intros Hmode Hne. unfold handleSubmit.
  rewrite (proj2 (truthy_true _) Hne), Hmode. simpl.
  intros [= <-]. eexists. split; [reflexivity|]. simpl.
  split; [done | apply trim_idempotent].
Qed.

(** The edit path stores the text of the form as it was typed. *)
Lemma submit_edit_raw_text (uuid : jsstr) (form : Form) (app : App)
    (t : Todo) :
  mode (modal app) = ModeEdit →
  todo (modal app) = Some t →
  trim (form_text form) ≠ [] →
  (todos <$> handleSubmit uuid form app)
  = Some (mapUpdate (id t)
            (nd_text_priority (form_text form) (form_priority form))
            (todos app)).
Proof.
  intros Hmode Htodo Hne. unfold handleSubmit.
  by rewrite (proj2 (truthy_true _) Hne), Hmode, Htodo.
Qed.

(** C10. When the storage holds nothing under ['todo_list_demo'], or
    holds an item that does not parse, the first render of [App] has the
    two seeded tasks: 'Learn React Hooks', not done, normal priority,
    then 'Do morning exercise', done, low priority. *)
Theorem init_seeds (ls : gmap jsstr jsstr) (uuid1 uuid2 : jsstr) :
  ls !! js "todo_list_demo" = None ∨
  (∃ item, ls !! js "todo_list_demo" = Some item ∧ JSON_parse item = None) →
  todos (App_init ls uuid1 uuid2)
  = [ {| id := uuid1; text := js "Learn React Hooks";
         done := false; priority := js "normal" |};
      {| id := uuid2; text := js "Do morning exercise";
         done := true; priority := js "low" |} ] ∧
  length (todos (App_init ls uuid1 uuid2)) = 2%nat ∧
  todos (App_init ls uuid1 uuid2) ≠ [].
Proof.
  intros Hls.
  assert (Hinit : todos (App_init ls uuid1 uuid2) = seedTodos uuid1 uuid2).
  { unfold App_init, useLocalStorage_init, todo_list_demo. simpl.
    destruct Hls as [-> | (item & -> & Hparse)]; [done|].
    rewrite Hparse. by destruct (truthy item). }
  rewrite Hinit. by repeat split.
Qed.

End Repository.

(** ** The filter engine *)

Section FilterFacts.
Context `{Browser}.

Lemma active_neq_completed : js "active" ≠ js "completed".
Proof. discriminate. Qed.

Lemma keeps_visible (statusFilter term : jsstr) (t : Todo) :
  keeps statusFilter term t = true ↔ visible_pred statusFilter term t.
Proof.
  unfold keeps, visible_pred, status_passes, search_passes, ci_substring.
  rewrite <- includes_infix.
  pose proof active_neq_completed as Hne.
  assert (Hterm : term = [] ↔ truthy term = false)
    by (destruct term; simpl; split; done).
  rewrite Hterm.
  destruct (truthy term), (includes _ _), (done t);
    destruct (decide (statusFilter = js "active")) as [Ha|Ha];
    destruct (decide (statusFilter = js "completed")) as [Hc|Hc];
    try congruence;
    rewrite ?(bool_decide_eq_true_2 _ Ha), ?(bool_decide_eq_false_2 _ Ha),
      ?(bool_decide_eq_true_2 _ Hc), ?(bool_decide_eq_false_2 _ Hc);
    simpl; intuition congruence.
Qed.

(** The visibility predicate can be decided. *)
Lemma visible_pred_dec (statusFilter term : jsstr) (t : Todo) :
  Decision (visible_pred statusFilter term t).
Proof.
  destruct (keeps statusFilter term t) eqn:Hk.
  - left. by apply keeps_visible.
  - right. rewrite <- keeps_visible. congruence.
Defined.

(** C6. [filteredTodos] is the input list filtered by the conjunction of
    the status predicate and the search predicate, whichever way that
    conjunction is decided: it is a sublist of the input, in the input's
    order, holding the tasks that pass both. [active] passes the tasks
    that are not done, [completed] those that are done, [all] every task;
    the search passes a task when the lower-cased term occurs in its
    lower-cased text, and the empty term passes every task. *)
Theorem filteredTodos_visible (tasks : list Todo) (statusFilter term : jsstr)
    `{!∀ t, Decision (visible_pred statusFilter term t)} :
  filteredTodos tasks statusFilter term
  = filter (visible_pred statusFilter term) tasks ∧
  filteredTodos tasks statusFilter term `sublist_of` tasks ∧
  (∀ t, t ∈ filteredTodos tasks statusFilter term
        ↔ t ∈ tasks ∧ status_passes statusFilter t ∧ search_passes term t) ∧
  (∀ t, status_passes (js "active") t ↔ done t = false) ∧
  (∀ t, status_passes (js "completed") t ↔ done t = true) ∧
  (∀ t, status_passes (js "all") t) ∧
  (∀ t, search_passes term t
        ↔ term = [] ∨
          ∃ pre post, toLowerCase (text t) = pre ++ toLowerCase term ++ post) ∧
  (∀ t, search_passes [] t).
Proof.
  unfold filteredTodos.
  split; [apply list_filter_iff; intros t; apply keeps_visible|].
  split; [apply sublist_filter|].
  split.
  { intros t. rewrite list_elem_of_filter, keeps_visible.
    unfold visible_pred. tauto. }
  unfold status_passes, search_passes, ci_substring.
  repeat split; intros; try discriminate; tauto.
Qed.

End FilterFacts.

(** ** The debouncer *)

Section DebounceFacts.
Import Debounce.
Context {A : Type} `{EqDecision A}.

Lemma from_inputs_mono (seen more : list A) (h : Hook A) :
  from_inputs seen h → from_inputs (seen ++ more) h.
Proof.
  intros (Hd & Hv & Hh). repeat split.
  - apply elem_of_app. by left.
  - apply elem_of_app. by left.
  - intros due v Hp. apply elem_of_app. left. by eapply Hh.
Qed.

Lemma from_inputs_tick (seen : list A) (now : Z) (h : Hook A) :
  from_inputs seen h → from_inputs seen (tick now h).
Proof.
  intros Hinv. pose proof Hinv as (Hd & Hv & Hh). unfold tick.
  destruct (handler h) as [[due v]|] eqn:Hp; [|exact Hinv].
  case_decide; [|exact Hinv].
  split; [|split]; simpl; [by eapply Hh | done | done].
Qed.

Lemma from_inputs_render (seen : list A) (d now : Z) (v : A)
    (h : Hook A) :
  from_inputs seen h → from_inputs (seen ++ [v]) (render d v now h).
Proof.
  intros Hinv. unfold render. case_decide.
  - by apply from_inputs_mono.
  - destruct Hinv as (Hd & Hv & Hh). repeat split; simpl.
    + apply elem_of_app. by left.
    + apply elem_of_app. right. by left.
    + intros due w [= _ <-]. apply elem_of_app. right. by left.
Qed.

Lemma from_inputs_feed (d : Z) (inputs : list (Z * A)) (seen : list A)
    (h : Hook A) :
  from_inputs seen h →
  from_inputs (seen ++ (snd <$> inputs)) (feed d inputs h).
Proof.
  revert seen h. induction inputs as [|[t v] inputs IH]; intros seen h Hinv.
  - simpl. by rewrite app_nil_r.
  - csimpl. rewrite cons_middle, (assoc_L (++)). apply IH.
    by apply from_inputs_render, from_inputs_tick.
Qed.

(** The output is always one of the inputs seen so far. *)
Lemma output_in_history (d t0 : Z) (v0 : A) (inputs : list (Z * A))
    (t : Z) :
  output_at d (mount d v0 t0) inputs t ∈ history v0 inputs t.
Proof.
  unfold output_at, history.
  change (v0 :: (snd <$> filter (λ p, (p.1 ≤ t)%Z) inputs))
    with ([v0] ++ (snd <$> filter (λ p, (p.1 ≤ t)%Z) inputs)).
  apply from_inputs_tick, from_inputs_feed.
  repeat split; simpl; [by left | by left |].
  intros due v [= _ <-]. by left.
Qed.

Lemma value_render (d now : Z) (v : A) (h : Hook A) :
  value (render d v now h) = v.
Proof. unfold render. case_decide as Hv; [by destruct Hv | done]. Qed.

Lemma value_tick (now : Z) (h : Hook A) : value (tick now h) = value h.
Proof.
  unfold tick. destruct (handler h) as [[due v]|]; [|done]. by case_decide.
Qed.

Lemma quiet_mount (d : Z) (v0 : A) (t0 lo : Z) :
  quiet v0 lo (mount d v0 t0).
Proof. split; [done|]. intros due v [= _ <-]. by left. Qed.

Lemma quiet_tick (v0 : A) (lo now : Z) (h : Hook A) :
  (now < lo)%Z → quiet v0 lo h → quiet v0 lo (tick now h).
Proof.
  intros Hnow Hq. pose proof Hq as [Hd Hh]. unfold tick.
  destruct (handler h) as [[due v]|] eqn:Hp; [|exact Hq].
  case_decide; [|exact Hq].
  split; [|done]. simpl. destruct (Hh due v eq_refl); [done | lia].
Qed.

Lemma quiet_render (v0 : A) (d lo now : Z) (v : A) (h : Hook A) :
  (lo ≤ now + d)%Z → quiet v0 lo h →
  quiet v0 lo (render d v now h).
Proof.
  intros Hlo Hq. unfold render. case_decide; [exact Hq|].
  destruct Hq as [Hd _]. split; [done|].
  intros due w [= <- _]. by right.
Qed.

Lemma quiet_output (v0 : A) (lo now : Z) (h : Hook A) :
  (now < lo)%Z → quiet v0 lo h → debouncedValue (tick now h) = v0.
Proof. intros Hnow Hq. by destruct (quiet_tick v0 lo now h Hnow Hq). Qed.

(** The scenario: inputs [a], [b], [c] at 0, 100 and 150, delay 400. *)
Lemma output_ABC (v0 a b c : A) (t0 t : Z) :
  (t0 ≤ 0)%Z → b ≠ c →
  output_at 400 (mount 400 v0 t0) [(0, a); (100, b); (150, c)]%Z t
  = if decide (t < 550)%Z then v0 else c.
Proof.
  intros Ht0 Hbc. unfold output_at.
  set (h0 := mount 400 v0 t0).
  set (h1 := render 400 a 0 (tick 0 h0)).
  set (h2 := render 400 b 100 (tick 100 h1)).
  assert (Hq0 : quiet v0 400 h0) by apply quiet_mount.
  assert (Hq1 : quiet v0 400 h1)
    by (apply quiet_render; [lia|]; apply quiet_tick; [lia | done]).
  assert (Hq2 : quiet v0 400 h2)
    by (apply quiet_render; [lia|]; apply quiet_tick; [lia | done]).
  rewrite !filter_cons, filter_nil. cbn [fst].
  destruct (decide (150 ≤ t)%Z) as [H150|H150].
  - rewrite !decide_True by lia. cbn [feed]. fold h0 h1 h2.
    assert (Hv : value (tick 150 h2) = b)
      by (rewrite value_tick; apply value_render).
    destruct (quiet_tick v0 400 150 h2 ltac:(lia) Hq2) as [Hd _].
    unfold render at 1. rewrite Hv, decide_False by (intros [? _]; congruence).
    unfold tick at 1. cbn [handler debouncedValue value].
    change (150 + 400)%Z with 550%Z.
    destruct (decide (550 ≤ t)%Z); cbn [debouncedValue].
    + by rewrite decide_False by lia.
    + by rewrite decide_True by lia.
  - rewrite (decide_True (P := (t < 550)%Z)) by lia.
    destruct (decide (0 ≤ t)%Z), (decide (100 ≤ t)%Z); cbn [feed];
      fold h0 h1 h2; try lia; apply (quiet_output v0 400); (lia || done).
Qed.

(** C9, as the code has it. Mounted at or before time 0 with any value
    [v0] and fed [a] at 0, [b] at 100 and [c] at 150, [b] other than [c],
    with a delay of 400, the debouncer returns [v0] at every time before
    550 and [c] from 550 on: its output changes once, at 550, to [c], and
    is at every time the mounting value or [c], whatever [a] and [b] are.
    For any delay and any inputs the output is one of the values seen so
    far, the mounting value among them. *)
Theorem debounce_ABC (v0 a b c : A) (t0 : Z) :
  (t0 ≤ 0)%Z → b ≠ c →
  let out :=
    output_at 400 (mount 400 v0 t0) [(0, a); (100, b); (150, c)]%Z in
  (∀ t, (t < 550)%Z → out t = v0) ∧
  (∀ t, (550 ≤ t)%Z → out t = c) ∧
  (∀ t, out t = v0 ∨ out t = c) ∧
  (∀ d (w0 : A) t1 inputs t,
     output_at d (mount d w0 t1) inputs t ∈ history w0 inputs t).
Proof.
  intros Ht0 Hbc out.
  assert (Hout : ∀ t, out t = if decide (t < 550)%Z then v0 else c)
    by (intros t; by apply output_ABC).
  split; [intros t Ht; by rewrite Hout, decide_True|].
  split; [intros t Ht; rewrite Hout, decide_False; [done | lia]|].
  split.
  - intros t. rewrite Hout. case_decide; [by left | by right].
  - intros d w0 t1 inputs t. apply output_in_history.
Qed.

End DebounceFacts.

(** ** Concrete runs *)

Example active_only :
  filteredTodos [milk; dog] (js "active") [] = [milk].
Proof. reflexivity. Qed.

(** [handleAddTodo] itself does not look at the text: the guard against
    blank input is the one of [handleSubmit]. *)
Example add_blank_unguarded :
  todos (handleAddTodo (js "3") (js "  ") (js "low") (demoApp []))
  = [ {| id := js "3"; text := []; done := false; priority := js "low" |} ].
Proof. reflexivity. Qed.

(** C1, counterexample. An update whose object carries the id of another
    record leaves two records with the same id. *)
Lemma update_with_id_key_duplicates :
  NoDup (ids (todos (demoApp [milk; dog]))) ∧
  fresh_draws (demoApp [milk; dog]) [Update (js "1") nd_id_2] ∧
  ¬ NoDup (ids (todos (run (demoApp [milk; dog])
                         [Update (js "1") nd_id_2]))).
Proof.
  split; [|split].
  - decide_by_computation.
  - by split.
  - decide_by_computation.
Qed.

Lemma ids_stay_unique_witness :
  NoDup (ids (todos (demoApp [milk; dog]))) ∧
  NoDup (ids (todos (run (demoApp [milk; dog])
                       [Add (js "3") (js " Call mum ") (js "normal");
                        Update (js "1")
                          (nd_text_priority (js "Buy oat milk") (js "low"));
                        ToggleDone (js "2");
                        Remove (js "1")]))).
Proof.
  assert (Hnodup : NoDup (ids (todos (demoApp [milk; dog]))))
    by decide_by_computation.
  split; [exact Hnodup|].
  apply ids_stay_unique; [exact Hnodup | |].
  - repeat split; decide_by_computation.
  - repeat constructor.
Defined.

Lemma submit_blank_is_noop_witness :
  trim (js "   ") = [] ∧
  handleSubmit (js "3") {| form_text := js "   "; form_priority := js "high" |}
    (demoApp [milk; dog])
  = Some (demoApp [milk; dog]).
Proof. split; [reflexivity | by apply submit_blank_is_noop]. Defined.

Lemma add_buy_milk_witness :
  (js "3" ∉ ids (todos (demoApp [dog]))) ∧
  ∃ newTodo,
    todos (handleAddTodo (js "3") (js " Buy milk ") (js "high")
             (demoApp [dog]))
    = newTodo :: [dog] ∧ text newTodo = js "Buy milk".
Proof.
  assert (Hfresh : js "3" ∉ ids (todos (demoApp [dog])))
    by decide_by_computation.
  split; [exact Hfresh|].
  destruct (add_buy_milk (js "3") (demoApp [dog]) Hfresh)
    as (newTodo & Htodos & Htext & _).
  by exists newTodo.
Defined.

(** C4, counterexample. An update whose object carries an [id] key
    replaces the id of the record. *)
Lemma update_with_id_key_changes_id :
  js "1" ∈ ids (todos (demoApp [milk])) ∧
  ids (todos (handleUpdateTodo (js "1") nd_id_2 (demoApp [milk])))
  = [js "2"] ∧
  ids (todos (handleUpdateTodo (js "1") nd_id_2 (demoApp [milk])))
  ≠ ids (todos (demoApp [milk])).
Proof.
  split; [|split].
  - decide_by_computation.
  - reflexivity.
  - discriminate.
Qed.

Lemma update_merges_in_place_witness :
  nd_id (nd_text_priority (js "Buy oat milk") (js "low")) = None ∧
  js "1" ∈ ids (todos (demoApp [dog; milk])) ∧
  todos (handleUpdateTodo (js "1")
           (nd_text_priority (js "Buy oat milk") (js "low"))
           (demoApp [dog; milk])) !! 0%nat
  = Some dog.
Proof.
  assert (Hin : js "1" ∈ ids (todos (demoApp [dog; milk])))
    by decide_by_computation.
  split; [reflexivity|]. split; [exact Hin|].
  destruct (update_merges_in_place (js "1")
              (nd_text_priority (js "Buy oat milk") (js "low"))
              (demoApp [dog; milk]) eq_refl Hin)
    as (_ & _ & Hother & _).
  apply Hother; [reflexivity | discriminate].
Defined.

(** C5, counterexample. Updating or removing an id that no record
    carries is not silent: the confirmation toast is shown. *)
Lemma unknown_id_shows_toast :
  (js "9" ∉ ids (todos (demoApp [milk; dog]))) ∧
  toast (demoApp [milk; dog]) = {| isShow := false; message := [] |} ∧
  toast (handleUpdateTodo (js "9") (nd_done_only true) (demoApp [milk; dog]))
  = {| isShow := true; message := js "Task updated!" |} ∧
  toast (handleDeleteTodo (js "9") (demoApp [milk; dog]))
  = {| isShow := true; message := js "Task deleted." |} ∧
  handleUpdateTodo (js "9") (nd_done_only true) (demoApp [milk; dog])
  ≠ demoApp [milk; dog] ∧
  handleDeleteTodo (js "9") (demoApp [milk; dog]) ≠ demoApp [milk; dog].
Proof.
  split; [decide_by_computation|].
  repeat split; intros Heq; apply (f_equal (λ app, isShow (toast app))) in Heq;
    discriminate.
Qed.

Lemma unknown_id_keeps_collection_witness :
  (js "9" ∉ ids (todos (demoApp [milk; dog]))) ∧
  todos (handleDeleteTodo (js "9") (demoApp [milk; dog])) = [milk; dog].
Proof.
  assert (Hout : js "9" ∉ ids (todos (demoApp [milk; dog])))
    by decide_by_computation.
  split; [exact Hout|].
  exact (proj1 (proj2 (unknown_id_keeps_collection (js "9")
                         (nd_done_only true) (demoApp [milk; dog]) Hout))).
Defined.

Lemma toggle_twice_witness :
  js "1" ∈ ids (todos (demoApp [milk; dog])) ∧
  ∃ t, find (js "1") (todos (demoApp [milk; dog])) = Some t ∧
       find (js "1")
         (todos (handleToggleDone (js "1")
                   (handleToggleDone (js "1") (demoApp [milk; dog]))))
       = Some t.
Proof.
  assert (Hin : js "1" ∈ ids (todos (demoApp [milk; dog])))
    by decide_by_computation.
  split; [exact Hin|].
  destruct (toggle_twice (js "1") (demoApp [milk; dog]) Hin)
    as (t & Ht & _ & Htwice & _).
  by exists t.
Defined.

(** C8. Editing a task stores the text of the form as typed: the record
    whose text was trimmed has, after the edit is saved, a text with a
    leading and a trailing space. *)
Theorem edit_stores_untrimmed_text :
  let app := handleOpenModal ModeEdit (Some milk) (demoApp [milk; dog]) in
  let form := {| form_text := js " Buy milk "; form_priority := js "high" |} in
  Forall (λ t, trimmed_nonempty (text t)) (todos app) ∧
  (todos <$> handleSubmit (js "3") form app)
  = Some [ {| id := js "1"; text := js " Buy milk "; done := false;
              priority := js "high" |}; dog ] ∧
  ¬ trimmed_nonempty (js " Buy milk ") ∧
  trim (js " Buy milk ") = js "Buy milk".
Proof.
  split; [|split; [|split]].
  - repeat constructor; discriminate.
  - reflexivity.
  - intros [_ Htrim]. discriminate.
  - reflexivity.
Qed.

Lemma init_seeds_witness :
  ((∅ : gmap jsstr jsstr) !! js "todo_list_demo" = None ∨
   ∃ item, (∅ : gmap jsstr jsstr) !! js "todo_list_demo" = Some item ∧
           JSON_parse item = None) ∧
  length (todos (App_init ∅ (js "u1") (js "u2"))) = 2%nat.
Proof.
  assert (Habsent :
    (∅ : gmap jsstr jsstr) !! js "todo_list_demo" = None ∨
    ∃ item, (∅ : gmap jsstr jsstr) !! js "todo_list_demo" = Some item ∧
            JSON_parse item = None)
    by (left; apply lookup_empty).
  split; [exact Habsent|].
  exact (proj1 (proj2 (init_seeds ∅ (js "u1") (js "u2") Habsent))).
Defined.

(** A stored item that does not parse also yields the seeds. *)
Example init_unparseable :
  todos (App_init {[ js "todo_list_demo" := js "{oops" ]} (js "u1") (js "u2"))
  = seedTodos (js "u1") (js "u2").
Proof. by vm_compute. Qed.

Lemma debounce_ABC_witness :
  (-1000 ≤ 0)%Z ∧ js "B" ≠ js "C" ∧
  Debounce.output_at 400 (Debounce.mount 400 (js "") (-1000))
    [(0, js "A"); (100, js "B"); (150, js "C")]%Z 550
  = js "C".
Proof.
  assert (Ht0 : (-1000 ≤ 0)%Z) by lia.
  assert (Hbc : js "B" ≠ js "C") by discriminate.
  split; [exact Ht0|]. split; [exact Hbc|].
  apply (proj1 (proj2 (debounce_ABC (js "") (js "A") (js "B") (js "C")
                         (-1000) Ht0 Hbc))).
  lia.
Defined.

(** C9, counterexample. The output starts as the value the hook is
    created with: created with "A" at time 0, it is "A" until 550; and
    with a box that holds the empty string, typing "a", clearing the box
    and typing "c" makes the second input the empty string, which is the
    output until 550. *)
Lemma debounce_output_is_A_or_B :
  Debounce.output_at 400 (Debounce.mount 400 (js "A") 0)
    [(0, js "A"); (100, js "B"); (150, js "C")]%Z 0
  = js "A" ∧
  Debounce.output_at 400 (Debounce.mount 400 (js "A") 0)
    [(0, js "A"); (100, js "B"); (150, js "C")]%Z 549
  = js "A" ∧
  Debounce.output_at 400 (Debounce.mount 400 (js "") (-1000))
    [(0, js "a"); (100, js ""); (150, js "c")]%Z 200
  = js "" ∧
  ¬ (∀ t, Debounce.output_at 400 (Debounce.mount 400 (js "A") 0)
            [(0, js "A"); (100, js "B"); (150, js "C")]%Z t ≠ js "A" ∧
          Debounce.output_at 400 (Debounce.mount 400 (js "A") 0)
            [(0, js "A"); (100, js "B"); (150, js "C")]%Z t ≠ js "B").
Proof.
  split; [reflexivity|]. split; [reflexivity|]. split; [reflexivity|].
  intros Hnever. destruct (Hnever 0%Z) as [HA _]. by apply HA.
Qed.

Example debounce_ABC_trace :
  (λ t, Debounce.output_at 400 (Debounce.mount 400 (js "") (-1000))
          [(0, js "A"); (100, js "B"); (150, js "C")]%Z t)
  <$> [0; 100; 150; 400; 549; 550; 1000]%Z
  = [js ""; js ""; js ""; js ""; js ""; js "C"; js "C"].
Proof. reflexivity. Qed.

(** * Further facts *)

(** ** The storage behind the collection *)

Section StorageFacts.
Context `{Browser}.

Lemma localStorage_setTodos_written (f : list Todo → list Todo) (app : App) :
  quotaExceeded (localStorage app) todo_list_demo
    (JSON_stringify (f (todos app))) = false →
  localStorage (setTodos f app)
  = <[todo_list_demo := JSON_stringify (f (todos app))]> (localStorage app).
Proof.
  intros Hq. unfold setTodos, setValue, setItem. simpl. by rewrite Hq.
Qed.

Lemma localStorage_setTodos_refused (f : list Todo → list Todo) (app : App) :
  quotaExceeded (localStorage app) todo_list_demo
    (JSON_stringify (f (todos app))) = true →
  localStorage (setTodos f app) = localStorage app.
Proof.
  intros Hq. unfold setTodos, setValue, setItem. simpl. by rewrite Hq.
Qed.

Lemma localStorage_setTodos_other (f : list Todo → list Todo) (app : App)
    (k : jsstr) :
  k ≠ todo_list_demo →
  localStorage (setTodos f app) !! k = localStorage app !! k.
Proof.
  intros Hk. unfold setTodos, setValue, setItem. simpl.
  destruct (quotaExceeded _ _ _); [done|]. by rewrite lookup_insert_ne.
Qed.

Lemma synced_setTodos (f : list Todo → list Todo) (app : App) :
  (∀ ls k s, quotaExceeded ls k s = false) →
  synced (setTodos f app).
Proof.
  intros Hq. unfold synced.
  rewrite localStorage_setTodos_written by apply Hq.
  apply lookup_insert_eq.
Qed.

Lemma synced_step (app : App) (a : Action) :
  (∀ ls k s, quotaExceeded ls k s = false) →
  synced app → synced (step app a).
Proof.
  intros Hq Hs. destruct a as [uuid txt prio|i nd|i|i]; simpl;
    try (by apply (synced_setTodos _ app)).
  unfold handleToggleDone. destruct (find i (todos app)); [|done].
  by apply (synced_setTodos _ app).
Qed.

Lemma synced_run (app : App) (acts : list Action) :
  (∀ ls k s, quotaExceeded ls k s = false) →
  synced app → synced (run app acts).
Proof.
  intros Hq. revert app. induction acts as [|a acts IH]; intros app Hs; [done|].
  unfold run. simpl. apply IH. by apply synced_step.
Qed.

(** While the storage accepts its writes, it holds the serialization of
    the collection after every add, update and remove, and keeps holding
    it through any sequence of operations. *)
Theorem storage_follows_collection (app : App) :
  (∀ ls k s, quotaExceeded ls k s = false) →
  (∀ uuid txt prio, synced (handleAddTodo uuid txt prio app)) ∧
  (∀ i newData, synced (handleUpdateTodo i newData app)) ∧
  (∀ i, synced (handleDeleteTodo i app)) ∧
  (∀ acts, synced app → synced (run app acts)).
Proof.
  intros Hq. repeat split; intros; try (by apply (synced_setTodos _ app)).
  by apply synced_run.
Qed.

Lemma localStorage_step_other (app : App) (a : Action) (k : jsstr) :
  k ≠ todo_list_demo →
  localStorage (step app a) !! k = localStorage app !! k.
Proof.
  intros Hk. destruct a as [uuid txt prio|i nd|i|i]; simpl;
    try (by apply (localStorage_setTodos_other _ app)).
  unfold handleToggleDone. destruct (find i (todos app)); [|done].
  by apply (localStorage_setTodos_other _ app).
Qed.

(** No sequence of operations on the collection touches what the storage
    holds under another key, the theme flag for one. *)
Theorem other_keys_untouched (app : App) (acts : list Action) (k : jsstr) :
  k ≠ js "todo_list_demo" →
  localStorage (run app acts) !! k = localStorage app !! k.
Proof.
  intros Hk. revert app. induction acts as [|a acts IH]; intros app; [done|].
  unfold run. simpl. fold (run (step app a) acts).
  rewrite IH. by apply localStorage_step_other.
Qed.

Lemma reload_synced (app : App) (uuid1 uuid2 : jsstr) :
  synced app →
  JSON_parse (JSON_stringify (todos app)) = Some (todos app) →
  JSON_stringify (todos app) ≠ [] →
  todos (App_init (localStorage app) uuid1 uuid2) = todos app.
Proof.
  intros Hs Hparse Hne. unfold App_init, useLocalStorage_init. simpl.
  rewrite Hs, Hparse. by rewrite (proj2 (truthy_true _) Hne).
Qed.

(** A reload after any sequence of operations brings back the
    collection they left, when the storage accepted its writes and the
    serialization of that collection is read back by the parser. *)
Theorem reload_restores_collection (app : App) (acts : list Action)
    (uuid1 uuid2 : jsstr) :
  (∀ ls k s, quotaExceeded ls k s = false) →
  synced app →
  JSON_parse (JSON_stringify (todos (run app acts)))
  = Some (todos (run app acts)) →
  JSON_stringify (todos (run app acts)) ≠ [] →
  todos (App_init (localStorage (run app acts)) uuid1 uuid2)
  = todos (run app acts).
Proof.
  intros Hq Hs Hparse Hne. apply reload_synced; [|done..].
  by apply synced_run.
Qed.

Lemma localStorage_step_refused (app : App) (a : Action) :
  (∀ ls k s, quotaExceeded ls k s = true) →
  localStorage (step app a) = localStorage app.
Proof.
  intros Hq. destruct a as [uuid txt prio|i nd|i|i]; simpl;
    try (by apply (localStorage_setTodos_refused _ app)).
  unfold handleToggleDone. destruct (find i (todos app)); [|done].
  by apply (localStorage_setTodos_refused _ app).
Qed.

(** When the storage refuses every write, it keeps what it held through
    any sequence of operations: a reload brings back the collection as it
    was before them. *)
Theorem refused_writes_are_lost (app : App) (acts : list Action)
    (uuid1 uuid2 : jsstr) :
  (∀ ls k s, quotaExceeded ls k s = true) →
  synced app →
  JSON_parse (JSON_stringify (todos app)) = Some (todos app) →
  JSON_stringify (todos app) ≠ [] →
  localStorage (run app acts) = localStorage app ∧
  todos (App_init (localStorage (run app acts)) uuid1 uuid2) = todos app.
Proof.
  intros Hq Hs Hparse Hne.
  assert (Hls : localStorage (run app acts) = localStorage app).
  { clear Hs Hparse Hne. revert app.
    induction acts as [|a acts IH]; intros app; [done|].
    unfold run. simpl. fold (run (step app a) acts).
    rewrite IH. by apply localStorage_step_refused. }
  split; [done|]. rewrite Hls. by apply reload_synced.
Qed.

End StorageFacts.

Lemma todos_step_any_browser (B1 B2 : Browser) (app1 app2 : App)
    (a : Action) :
  todos app1 = todos app2 →
  todos (@step B1 app1 a) = todos (@step B2 app2 a).
Proof.
  intros Heq. destruct a as [uuid txt prio|i nd|i|i]; simpl.
  - by rewrite Heq.
  - by rewrite Heq.
  - by rewrite Heq.
  - unfold handleToggleDone. rewrite Heq.
    destruct (find i (todos app2)); [simpl; by rewrite Heq | done].
Qed.

(** The collection in memory after a sequence of operations does not
    depend on the browser: it is the same whether the storage accepts the
    writes or refuses them, whatever the serializer. *)
Theorem memory_ignores_storage (B1 B2 : Browser) (app1 app2 : App)
    (acts : list Action) :
  todos app1 = todos app2 →
  todos (@run B1 app1 acts) = todos (@run B2 app2 acts).
Proof.
  revert app1 app2. induction acts as [|a acts IH]; intros app1 app2 Heq;
    [done|].
  unfold run. simpl. apply IH. by apply todos_step_any_browser.
Qed.

(** ** How the operations compose *)

Section Algebra.
Context `{Browser}.

Lemma filterOut_idempotent (i : jsstr) (l : list Todo) :
  filterOut i (filterOut i l) = filterOut i l.
Proof. apply filterOut_absent, not_elem_of_ids_filterOut. Qed.

Lemma filterOut_comm (i j : jsstr) (l : list Todo) :
  filterOut i (filterOut j l) = filterOut j (filterOut i l).
Proof.
  unfold filterOut. rewrite !list_filter_filter.
  apply list_filter_iff. intros t. tauto.
Qed.

(** Removing the task that was just added, under the fresh id it was
    given, gives back the collection as it was. *)
Theorem add_then_remove (uuid txt prio : jsstr) (app : App) :
  uuid ∉ ids (todos app) →
  todos (handleDeleteTodo uuid (handleAddTodo uuid txt prio app))
  = todos app.
Proof.
  intros Hfresh. rewrite todos_handleDeleteTodo, todos_handleAddTodo.
  unfold filterOut. rewrite filter_cons_False by (simpl; tauto).
  by apply filterOut_absent.
Qed.

(** After a remove no record carries the id; what is left is the rest
    of the collection in its order, every record with another id still
    there; removing the same id again changes nothing, and two removes
    give the same collection in either order. *)
Theorem remove_facts (i j : jsstr) (app : App) :
  (i ∉ ids (todos (handleDeleteTodo i app))) ∧
  todos (handleDeleteTodo i app) `sublist_of` todos app ∧
  (∀ t, t ∈ todos (handleDeleteTodo i app) ↔ t ∈ todos app ∧ id t ≠ i) ∧
  todos (handleDeleteTodo i (handleDeleteTodo i app))
  = todos (handleDeleteTodo i app) ∧
  todos (handleDeleteTodo i (handleDeleteTodo j app))
  = todos (handleDeleteTodo j (handleDeleteTodo i app)).
Proof.
  rewrite !todos_handleDeleteTodo.
  split; [apply not_elem_of_ids_filterOut|].
  split; [apply sublist_filter|].
  split; [intros t; unfold filterOut; rewrite list_elem_of_filter; tauto|].
  split; [apply filterOut_idempotent | apply filterOut_comm].
Qed.

Lemma spread_idempotent (t : Todo) (newData : NewData) :
  spread (spread t newData) newData = spread t newData.
Proof.
  destruct newData as [[?|] [?|] [?|] [?|]]; reflexivity.
Qed.

(** Applying the same update twice is applying it once, also when the
    object carries an [id] key. *)
Theorem update_idempotent (i : jsstr) (newData : NewData) (app : App) :
  todos (handleUpdateTodo i newData (handleUpdateTodo i newData app))
  = todos (handleUpdateTodo i newData app).
Proof.
  rewrite !todos_handleUpdateTodo. unfold mapUpdate.
  rewrite <- list_fmap_compose. apply list_fmap_ext. intros k t _. simpl.
  destruct (decide (id t = i)) as [Ht|Ht].
  - destruct (decide (id (spread t newData) = i)); [|done].
    apply spread_idempotent.
  - by rewrite decide_False.
Qed.

(** Checking off a task that is not done takes every record with its id
    out of the active view, whatever the search term, and puts the
    checked record into the completed view. *)
Theorem toggle_moves_between_views (i term : jsstr) (app : App) (t : Todo) :
  find i (todos app) = Some t →
  done t = false →
  (∀ u, u ∈ filteredTodos (todos (handleToggleDone i app)) (js "active") term
        → id u ≠ i) ∧
  {| id := id t; text := text t; done := true; priority := priority t |}
  ∈ filteredTodos (todos (handleToggleDone i app)) (js "completed") [].
Proof.
  intros Hfind Hdone.
  rewrite (todos_handleToggleDone _ _ _ Hfind), Hdone. simpl.
  unfold filteredTodos. split.
  - intros u Hu Hid. apply list_elem_of_filter in Hu as [Hkeep Hu].
    unfold mapUpdate in Hu. apply list_elem_of_fmap in Hu as (v & -> & Hv).
    destruct (decide (id v = i)) as [Hvi|Hvi]; [|done].
    unfold keeps in Hkeep. simpl in Hkeep. discriminate.
  - apply list_elem_of_filter. split; [reflexivity|].
    destruct (find_Some _ _ _ Hfind) as [Hin Hid].
    unfold mapUpdate. apply list_elem_of_fmap. exists t. split; [|done].
    by rewrite decide_True.
Qed.

End Algebra.

(** ** The views *)

Section Views.
Context `{Browser}.

Lemma keeps_other_status (statusFilter term : jsstr) (t : Todo) :
  statusFilter ≠ js "active" → statusFilter ≠ js "completed" →
  keeps statusFilter term t = keeps (js "all") term t.
Proof.
  intros Ha Hc. unfold keeps.
  by rewrite (bool_decide_eq_false_2 _ Ha), (bool_decide_eq_false_2 _ Hc).
Qed.

(** With a status filter that is neither ['active'] nor ['completed']
    and an empty search term, the view is the whole collection. *)
Theorem view_all_is_everything (tasks : list Todo) (statusFilter : jsstr) :
  statusFilter ≠ js "active" → statusFilter ≠ js "completed" →
  filteredTodos tasks statusFilter [] = tasks.
Proof.
  intros Ha Hc. unfold filteredTodos.
  induction tasks as [|t tasks IH]; [done|].
  rewrite filter_cons_True, IH; [done|].
  by rewrite keeps_other_status.
Qed.

Lemma keeps_all (term : jsstr) (t : Todo) :
  keeps (js "all") term t
  = negb (truthy term
          && negb (includes (toLowerCase (text t)) (toLowerCase term))).
Proof. unfold keeps. by destruct (truthy term && negb (includes _ _)). Qed.

Lemma keeps_active (term : jsstr) (t : Todo) :
  keeps (js "active") term t = negb (done t) && keeps (js "all") term t.
Proof.
  rewrite keeps_all. unfold keeps.
  by destruct (done t), (truthy term && negb (includes _ _)).
Qed.

Lemma keeps_completed (term : jsstr) (t : Todo) :
  keeps (js "completed") term t = done t && keeps (js "all") term t.
Proof.
  rewrite keeps_all. unfold keeps.
  by destruct (done t), (truthy term && negb (includes _ _)).
Qed.

Lemma keeps_implies_all (statusFilter term : jsstr) (t : Todo) :
  keeps statusFilter term t = true → keeps (js "all") term t = true.
Proof.
  rewrite keeps_all. unfold keeps.
  destruct (bool_decide (statusFilter = js "active") && done t); [done|].
  destruct (bool_decide (statusFilter = js "completed") && negb (done t));
    [done|].
  by destruct (truthy term && negb (includes _ _)).
Qed.

Lemma keeps_implies_no_term (statusFilter term : jsstr) (t : Todo) :
  keeps statusFilter term t = true → keeps statusFilter [] t = true.
Proof.
  unfold keeps.
  destruct (bool_decide (statusFilter = js "active") && done t); [done|].
  by destruct (bool_decide (statusFilter = js "completed") && negb (done t)).
Qed.

Lemma filter_sublist_impl {A : Type} (P Q : A → Prop)
    `{!∀ x, Decision (P x)} `{!∀ x, Decision (Q x)} (l : list A) :
  (∀ x, P x → Q x) → filter P l `sublist_of` filter Q l.
Proof.
  intros HPQ. induction l as [|x l IH]; [done|].
  rewrite !filter_cons. destruct (decide (P x)) as [HP|HP].
  - rewrite decide_True by auto. by constructor.
  - case_decide; [by constructor | done].
Qed.

(** For any search term the active view and the completed view split
    the unfiltered view: together they hold exactly its tasks, and no
    task is in both. *)
Theorem views_partition (tasks : list Todo) (term : jsstr) :
  filteredTodos tasks (js "active") term
  ++ filteredTodos tasks (js "completed") term
  ≡ₚ filteredTodos tasks (js "all") term ∧
  (∀ t, t ∈ filteredTodos tasks (js "active") term →
        t ∉ filteredTodos tasks (js "completed") term).
Proof.
  unfold filteredTodos. split.
  - induction tasks as [|t tasks IH]; [done|].
    destruct (keeps (js "all") term t) eqn:Hall, (done t) eqn:Hdone.
    + rewrite (filter_cons_False (λ u, keeps (js "active") term u = true))
        by (rewrite keeps_active, Hall, Hdone; done).
      rewrite (filter_cons_True (λ u, keeps (js "completed") term u = true))
        by (rewrite keeps_completed, Hall, Hdone; done).
      rewrite (filter_cons_True (λ u, keeps (js "all") term u = true))
        by done.
      by rewrite <- Permutation_middle, IH.
    + rewrite (filter_cons_True (λ u, keeps (js "active") term u = true))
        by (rewrite keeps_active, Hall, Hdone; done).
      rewrite (filter_cons_False (λ u, keeps (js "completed") term u = true))
        by (rewrite keeps_completed, Hall, Hdone; done).
      rewrite (filter_cons_True (λ u, keeps (js "all") term u = true))
        by done.
      simpl. by rewrite IH.
    + rewrite (filter_cons_False (λ u, keeps (js "active") term u = true))
        by (rewrite keeps_active, Hall, Hdone; done).
      rewrite (filter_cons_False (λ u, keeps (js "completed") term u = true))
        by (rewrite keeps_completed, Hall, Hdone; done).
      rewrite (filter_cons_False (λ u, keeps (js "all") term u = true))
        by (rewrite Hall; done).
      exact IH.
    + rewrite (filter_cons_False (λ u, keeps (js "active") term u = true))
        by (rewrite keeps_active, Hall, Hdone; done).
      rewrite (filter_cons_False (λ u, keeps (js "completed") term u = true))
        by (rewrite keeps_completed, Hall, Hdone; done).
      rewrite (filter_cons_False (λ u, keeps (js "all") term u = true))
        by (rewrite Hall; done).
      exact IH.
  - intros t Ha Hc.
    apply list_elem_of_filter in Ha as [Ha _].
    apply list_elem_of_filter in Hc as [Hc _].
    rewrite keeps_active in Ha. rewrite keeps_completed in Hc.
    destruct (done t); simpl in *; discriminate.
Qed.

(** A view is a part of the unfiltered view for the same term and of
    the view for the same status without a term; filtering a view again
    with its own filter and term changes nothing; removing a task from
    the collection removes it from the view and leaves the rest of the
    view as it was. *)
Theorem views_nest (tasks : list Todo) (statusFilter term i : jsstr) :
  filteredTodos tasks statusFilter term
    `sublist_of` filteredTodos tasks (js "all") term ∧
  filteredTodos tasks statusFilter term
    `sublist_of` filteredTodos tasks statusFilter [] ∧
  filteredTodos (filteredTodos tasks statusFilter term) statusFilter term
  = filteredTodos tasks statusFilter term ∧
  filteredTodos (filterOut i tasks) statusFilter term
  = filterOut i (filteredTodos tasks statusFilter term).
Proof.
  unfold filteredTodos, filterOut. repeat split.
  - apply filter_sublist_impl. intros t. apply keeps_implies_all.
  - apply filter_sublist_impl. intros t. apply keeps_implies_no_term.
  - rewrite list_filter_filter. apply list_filter_iff. intros t. tauto.
  - rewrite !list_filter_filter. apply list_filter_iff. intros t. tauto.
Qed.

End Views.

(** ** Settling of the debouncer *)

Section DebounceSettling.
Import Debounce.
Context {A : Type} `{EqDecision A}.

Lemma last_input_cons (v0 v : A) (t : Z) (inputs : list (Z * A)) :
  last_input v0 ((t, v) :: inputs) = last_input v inputs.
Proof.
  unfold last_input. csimpl. rewrite last_cons.
  by destruct (last (snd <$> inputs)).
Qed.

Lemma settling_mount (d : Z) (v0 : A) (t0 bound : Z) :
  (t0 + d ≤ bound)%Z → settling d bound (mount d v0 t0).
Proof. intros Hb. split; [done|]. right. by exists (t0 + d)%Z. Qed.

Lemma settling_tick (d bound now : Z) (h : Hook A) :
  settling d bound h → settling d bound (tick now h).
Proof.
  intros Hs. pose proof Hs as [Hd [[Hn Hv] | (due & Hp & Hb)]]; unfold tick.
  - by rewrite Hn.
  - rewrite Hp. case_decide; [|exact Hs].
    split; [done|]. left. done.
Qed.

Lemma settling_render (d bound now : Z) (v : A) (h : Hook A) :
  (now + d ≤ bound)%Z →
  settling d bound h → settling d bound (render d v now h).
Proof.
  intros Hb Hs. unfold render. case_decide; [exact Hs|].
  split; [done|]. right. by exists (now + d)%Z.
Qed.

Lemma settling_feed (d bound : Z) (inputs : list (Z * A)) (h : Hook A) :
  (∀ p, p ∈ inputs → (p.1 + d ≤ bound)%Z) →
  settling d bound h →
  settling d bound (feed d inputs h) ∧
  value (feed d inputs h) = last_input (value h) inputs.
Proof.
  revert h. induction inputs as [|[t v] inputs IH]; intros h Hin Hs.
  - done.
  - simpl. rewrite last_input_cons.
    destruct (IH (render d v t (tick t h))) as [Hs' Hv'].
    + intros p Hp. apply Hin. by right.
    + apply settling_render, settling_tick; [|done].
      apply (Hin (t, v)). by left.
    + split; [done|]. by rewrite Hv', value_render.
Qed.

(** Once the delay has passed since the mount and since every input,
    the debouncer returns the last input, the mounting value when there
    was none. *)
Theorem debounce_settles (d t0 t : Z) (v0 : A) (inputs : list (Z * A)) :
  (0 ≤ d)%Z →
  (t0 + d ≤ t)%Z →
  (∀ p, p ∈ inputs → (p.1 + d ≤ t)%Z) →
  output_at d (mount d v0 t0) inputs t = last_input v0 inputs.
Proof.
  intros Hd Ht0 Hin. unfold output_at.
  assert (Hall : filter (λ p : Z * A, (p.1 ≤ t)%Z) inputs = inputs).
  { clear Ht0. induction inputs as [|p inputs IH]; [done|].
    rewrite filter_cons_True.
    - rewrite IH; [done|]. intros q Hq. apply Hin. by right.
    - specialize (Hin p ltac:(by left)). lia. }
  rewrite Hall.
  destruct (settling_feed d t inputs (mount d v0 t0) Hin
              (settling_mount d v0 t0 t Ht0)) as [[_ Hs] Hv].
  simpl in Hv. rewrite <- Hv. unfold tick.
  destruct Hs as [[Hn Hdv] | (due & Hp & Hb)].
  - by rewrite Hn.
  - rewrite Hp. by rewrite decide_True.
Qed.

End DebounceSettling.

(** ** The toast and its timeouts *)

Section ToastFacts.
Import Toasts.

Lemma elapse_not_due (now : Z) (st : State) :
  Forall (λ due, (now < due)%Z) (pending st) → elapse now st = st.
Proof.
  intros Hall. unfold elapse. rewrite decide_False; [done|].
  intros Hex. apply Exists_exists in Hex as (due & Hin & Hdue).
  rewrite Forall_forall in Hall. specialize (Hall due Hin). lia.
Qed.

(** A toast raised when none is pending stays for three seconds: it is
    shown, with its message, at every time before [now + 3000] and
    hidden from then on. *)
Theorem toast_lasts_three_seconds (now t : Z) (msg : jsstr) :
  (now ≤ t)%Z →
  shown (elapse t (showToast now msg idle))
  = if decide (t < now + 3000)%Z
    then {| isShow := true; message := msg |}
    else hidden.
Proof.
  intros Ht. unfold elapse, showToast, idle. simpl.
  destruct (decide (t < now + 3000)%Z) as [Hlt|Hge].
  - rewrite decide_False; [done|].
    intros Hex. apply Exists_cons in Hex as [Hdue | Hex]; [lia|].
    by apply Exists_nil in Hex.
  - rewrite decide_True; [done|]. apply Exists_cons. left. lia.
Qed.

(** The timeout of a toast is not cleared when the next toast is raised:
    a second toast raised less than three seconds after a first is
    hidden when the timeout of the first runs, before its own three
    seconds are over. *)
Theorem second_toast_cut_short (t1 t2 t : Z) (m1 m2 : jsstr) :
  (t1 ≤ t2)%Z → (t2 < t1 + 3000)%Z → (t2 ≤ t)%Z →
  shown (elapse t (showToast t2 m2 (elapse t2 (showToast t1 m1 idle))))
  = if decide (t < t1 + 3000)%Z
    then {| isShow := true; message := m2 |}
    else hidden.
Proof.
  intros H12 H21 Ht.
  rewrite (elapse_not_due t2 (showToast t1 m1 idle))
    by (repeat constructor; simpl; lia).
  unfold elapse, showToast, idle. simpl.
  destruct (decide (t < t1 + 3000)%Z) as [Hlt|Hge].
  - rewrite decide_False; [done|].
    intros Hex. apply Exists_cons in Hex as [Hdue | Hex]; [lia|].
    apply Exists_cons in Hex as [Hdue | Hex]; [lia|].
    by apply Exists_nil in Hex.
  - rewrite decide_True; [done|]. apply Exists_cons. left. lia.
Qed.

End ToastFacts.

(** ** The theme *)

Section ThemeFacts.
Import Theme.
Variable JSON_parse : jsstr → option jsstr.
Variable JSON_stringify : jsstr → jsstr.
Variable quotaExceeded : gmap jsstr jsstr → jsstr → jsstr → bool.

Lemma effect_mirrors (st : State) :
  (dark_theme ∈ classList (effect st) ↔ theme st = js "1") ∧
  (∀ c, c ≠ dark_theme → c ∈ classList (effect st) ↔ c ∈ classList st).
Proof.
  unfold effect. simpl. case_decide as Ht; split.
  - rewrite elem_of_union, elem_of_singleton. tauto.
  - intros c Hc. rewrite elem_of_union, elem_of_singleton. tauto.
  - rewrite elem_of_difference, elem_of_singleton. tauto.
  - intros c Hc. rewrite elem_of_difference, elem_of_singleton. tauto.
Qed.

Lemma theme_toggleTheme (st : State) :
  theme (toggleTheme JSON_stringify quotaExceeded st) = flip (theme st).
Proof. reflexivity. Qed.

Lemma dark_init (ls : gmap jsstr jsstr) (classes : gset jsstr) :
  dark_theme ∈ classList (init JSON_parse ls classes)
  ↔ theme (init JSON_parse ls classes) = js "1".
Proof.
  unfold init. set (st := mkState _ _ _).
  change (theme (effect st)) with (theme st). apply effect_mirrors.
Qed.

Lemma dark_toggleTheme (st : State) :
  dark_theme ∈ classList (toggleTheme JSON_stringify quotaExceeded st)
  ↔ theme (toggleTheme JSON_stringify quotaExceeded st) = js "1".
Proof.
  unfold toggleTheme. set (st' := mkState _ _ _).
  change (theme (effect st')) with (theme st'). apply effect_mirrors.
Qed.

Lemma other_toggleTheme (st : State) (c : jsstr) :
  c ≠ dark_theme →
  c ∈ classList (toggleTheme JSON_stringify quotaExceeded st)
  ↔ c ∈ classList st.
Proof.
  intros Hc. unfold toggleTheme.
  by rewrite (proj2 (effect_mirrors _) c Hc).
Qed.

(** After the first render and after every toggle, the root carries the
    class ['dark-theme'] exactly when the flag is ['1']; a toggle leaves
    the other classes of the root alone and leaves the flag at ['0'] or
    ['1'], at ['0'] exactly when it was ['1']. *)
Theorem theme_class_mirrors_flag (ls : gmap jsstr jsstr)
    (classes : gset jsstr) (st : State) :
  let first := init JSON_parse ls classes in
  let next := toggleTheme JSON_stringify quotaExceeded st in
  (dark_theme ∈ classList first ↔ theme first = js "1") ∧
  (dark_theme ∈ classList next ↔ theme next = js "1") ∧
  (∀ c, c ≠ dark_theme → c ∈ classList next ↔ c ∈ classList st) ∧
  (theme next = js "0" ∨ theme next = js "1") ∧
  (theme next = js "0" ↔ theme st = js "1").
Proof.
  intros first next.
  split; [apply dark_init|].
  split; [apply dark_toggleTheme|].
  split; [intros c Hc; by apply other_toggleTheme|].
  subst next. rewrite theme_toggleTheme. unfold flip.
  case_decide as Ht.
  - split; [by left | by split].
  - split; [by right | split; [discriminate | done]].
Qed.

(** Two toggles give back the flag they started from when it was ['0']
    or ['1'], and only then: any other stored value becomes ['1'] at the
    first toggle and never comes back. Three toggles are one. *)
Theorem theme_toggle_twice (st : State) :
  let toggle := toggleTheme JSON_stringify quotaExceeded in
  (theme (toggle (toggle st)) = theme st
   ↔ theme st = js "0" ∨ theme st = js "1") ∧
  theme (toggle (toggle (toggle st))) = theme (toggle st) ∧
  classList (toggle (toggle (toggle st))) = classList (toggle st).
Proof.
  intros toggle. subst toggle.
  assert (Hflip3 : flip (flip (flip (theme st))) = flip (theme st))
    by (unfold flip; destruct (decide (theme st = js "1")); reflexivity).
  split; [|split].
  - rewrite !theme_toggleTheme.
    assert (Hflip2 : flip (flip (theme st))
                     = if decide (theme st = js "1") then js "1" else js "0")
      by (unfold flip; destruct (decide (theme st = js "1")); reflexivity).
    rewrite Hflip2. case_decide as Ht.
    + split; [intros _; by right | done].
    + split; [intros <-; by left | intros [Hz|Ho]; [done | contradiction]].
  - by rewrite !theme_toggleTheme.
  - apply set_eq. intros c. destruct (decide (c = dark_theme)) as [->|Hc].
    + rewrite !dark_toggleTheme, !theme_toggleTheme. by rewrite Hflip3.
    + by rewrite !other_toggleTheme.
Qed.


End ThemeFacts.

(** ** The user interface *)

Section InterfaceFacts.
Context `{Browser}.

Lemma modal_handleToggleDone (i : jsstr) (app : App) :
  modal (handleToggleDone i app) = modal app.
Proof. unfold handleToggleDone. by destruct (find i (todos app)). Qed.

Lemma modal_confirmDelete (app : App) :
  modal (confirmDelete app) = modal app.
Proof. unfold confirmDelete. by destruct (del_id (deleteModal app)). Qed.

Lemma todos_confirmDelete (app : App) :
  todos (confirmDelete app)
  = match del_id (deleteModal app) with
    | Some i => filterOut i (todos app)
    | None => todos app
    end.
Proof. unfold confirmDelete. by destruct (del_id (deleteModal app)). Qed.

Lemma dispatch_never_throws (ui : UI) (e : Event) :
  modal_ok ui → ∃ ui', dispatch ui e = Some ui' ∧ modal_ok ui'.
Proof.
  intros Hok. unfold modal_ok in *.
  destruct e as [|t|s|p| |uuid|i|i| |];
    try (eexists; split; [reflexivity|]; simpl;
         rewrite ?modal_handleToggleDone, ?modal_confirmDelete;
         first [exact Hok | discriminate | (intros _; by eexists)]).
  simpl. unfold handleSubmit.
  destruct (truthy (trim (form_text (ui_form ui)))); simpl;
    [|by eexists].
  destruct (mode (modal (ui_app ui))) eqn:Hmode.
  - eexists. split; [reflexivity | simpl; discriminate].
  - destruct (Hok eq_refl) as [t Ht]. rewrite Ht.
    eexists. split; [reflexivity | simpl; discriminate].
Qed.

(** From the first render on, no series of events brings the dialog
    into edit mode without its task: the save handler never fails on
    [modal.todo.id], and every series of events runs to its end. *)
Theorem events_never_throw (ls : gmap jsstr jsstr) (uuid1 uuid2 : jsstr)
    (evs : list Event) :
  ∃ ui', runUI {| ui_app := App_init ls uuid1 uuid2; ui_form := emptyForm |}
           evs = Some ui' ∧
         modal_ok ui'.
Proof.
  assert (Hok : modal_ok {| ui_app := App_init ls uuid1 uuid2;
                            ui_form := emptyForm |}) by done.
  revert Hok. generalize {| ui_app := App_init ls uuid1 uuid2;
                            ui_form := emptyForm |}.
  induction evs as [|e evs IH]; intros ui Hok; simpl.
  - by exists ui.
  - destruct (dispatch_never_throws ui e Hok) as (ui' & -> & Hok').
    by apply IH.
Qed.

Lemma dispatch_unique_ids (ui ui' : UI) (e : Event) :
  unique_ids ui → enabled ui e → dispatch ui e = Some ui' →
  unique_ids ui'.
Proof.
  unfold unique_ids. intros Hnodup Hen.
  destruct e; simpl; try (intros [= <-]; simpl; done).
  - destruct (truthy (trim (form_text (ui_form ui)))) eqn:Htr; simpl;
      [|by intros [= <-]].
    unfold handleSubmit. rewrite Htr. simpl.
    destruct Hen as [_ Hfresh].
    destruct (mode (modal (ui_app ui))).
    + simpl. intros [= <-]. simpl. unfold ids. csimpl.
      apply NoDup_cons. by split.
    + destruct (todo (modal (ui_app ui))); simpl; [|done].
      intros [= <-]. simpl. by rewrite ids_mapUpdate.
  - intros [= <-]. simpl. unfold handleToggleDone.
    destruct (find i (todos (ui_app ui))); [|done].
    rewrite todos_handleUpdateTodo. by rewrite ids_mapUpdate.
  - intros [= <-]. simpl. rewrite todos_confirmDelete.
    destruct (del_id (deleteModal (ui_app ui))); [|done].
    by apply NoDup_ids_filterOut.
Qed.

(** Whatever the user does, the ids of the collection stay unique: every
    series of events raised by rendered elements, each save drawing a
    fresh identifier, takes a collection with unique ids to one with
    unique ids. *)
Theorem interface_keeps_ids_unique (ui ui' : UI) (evs : list Event) :
  unique_ids ui → feasible ui evs → runUI ui evs = Some ui' →
  unique_ids ui'.
Proof.
  revert ui. induction evs as [|e evs IH]; intros ui Hnodup Hfeas; simpl.
  - by intros [= <-].
  - destruct Hfeas as [Hen Hrest].
    destruct (dispatch ui e) as [ui1|] eqn:Hd; [|done].
    apply IH; [|done]. by eapply dispatch_unique_ids.
Qed.

Lemma nonblank_mapUpdate_text (i txt prio : jsstr) (l : list Todo) :
  trim txt ≠ [] → nonblank l →
  nonblank (mapUpdate i (nd_text_priority txt prio) l).
Proof.
  intros Htxt Hl. unfold nonblank, mapUpdate.
  apply Forall_fmap. eapply Forall_impl; [exact Hl|].
  intros t Ht. simpl. by case_decide.
Qed.

Lemma nonblank_mapUpdate_done (i : jsstr) (b : bool) (l : list Todo) :
  nonblank l → nonblank (mapUpdate i (nd_done_only b) l).
Proof.
  intros Hl. unfold nonblank, mapUpdate.
  apply Forall_fmap. eapply Forall_impl; [exact Hl|].
  intros t Ht. simpl. by case_decide.
Qed.

Lemma nonblank_filterOut (i : jsstr) (l : list Todo) :
  nonblank l → nonblank (filterOut i l).
Proof.
  unfold nonblank, filterOut. rewrite !Forall_forall. intros Hl t Ht.
  apply list_elem_of_filter in Ht as [_ Ht]. by apply Hl.
Qed.

Lemma dispatch_nonblank (ui ui' : UI) (e : Event) :
  nonblank (todos (ui_app ui)) → dispatch ui e = Some ui' →
  nonblank (todos (ui_app ui')).
Proof.
  intros Hnb.
  destruct e as [|t|s|p| |uuid|i|i| |]; simpl;
    try (intros [= <-]; simpl; exact Hnb).
  - destruct (truthy (trim (form_text (ui_form ui)))) eqn:Htr; simpl;
      [|by intros [= <-]].
    apply truthy_true in Htr as Hne.
    unfold handleSubmit. rewrite Htr. simpl.
    destruct (mode (modal (ui_app ui))).
    + simpl. intros [= <-]. simpl. apply Forall_cons. split; [|exact Hnb].
      simpl. by rewrite trim_idempotent.
    + destruct (todo (modal (ui_app ui))); simpl; [|done].
      intros [= <-]. simpl. by apply nonblank_mapUpdate_text.
  - intros [= <-]. simpl. unfold handleToggleDone.
    destruct (find i (todos (ui_app ui))); [|done].
    rewrite todos_handleUpdateTodo. by apply nonblank_mapUpdate_done.
  - intros [= <-]. simpl. rewrite todos_confirmDelete.
    destruct (del_id (deleteModal (ui_app ui))); [|done].
    by apply nonblank_filterOut.
Qed.

(** Whatever the user does, no task gets a blank text: every series of
    events takes a collection whose texts all have a non-empty trim to
    one with the same property, the edit of a task included. *)
Theorem interface_keeps_texts_nonblank (ui ui' : UI) (evs : list Event) :
  nonblank (todos (ui_app ui)) → runUI ui evs = Some ui' →
  nonblank (todos (ui_app ui')).
Proof.
  revert ui. induction evs as [|e evs IH]; intros ui Hnb; simpl.
  - by intros [= <-].
  - destruct (dispatch ui e) as [ui1|] eqn:Hd; [|done].
    apply IH. by eapply dispatch_nonblank.
Qed.

(** Of the events of the tasks and the two dialogs, all but a save, a
    toggle and a confirmed delete leave the collection and the storage
    as they are. *)
Lemma only_three_events_write (ui ui' : UI) (e : Event) :
  dispatch ui e = Some ui' →
  match e with
  | ClickSave _ | ClickToggle _ | ClickConfirmDelete => True
  | _ =>
      todos (ui_app ui') = todos (ui_app ui) ∧
      localStorage (ui_app ui') = localStorage (ui_app ui)
  end.
Proof.
  destruct e; simpl; try done; by intros [= <-].
Qed.

Lemma unique_ids_same_record (l : list Todo) (t u : Todo) :
  NoDup (ids l) → t ∈ l → u ∈ l → id u = id t → u = t.
Proof.
  unfold ids. induction l as [|v l IH]; csimpl; [by intros _ ?%elem_of_nil|].
  rewrite NoDup_cons. intros [Hv Hl] Ht Hu Hid.
  apply elem_of_cons in Ht as [-> | Ht], Hu as [-> | Hu]; [done | | |].
  - exfalso. apply Hv. rewrite <- Hid. by apply list_elem_of_fmap_2.
  - exfalso. apply Hv. rewrite Hid. by apply list_elem_of_fmap_2.
  - by apply IH.
Qed.

(** Opening the edit dialog on a task and saving it as it is changes
    nothing in a collection with unique ids, and closes the dialog. *)
Theorem edit_unchanged_is_identity (ui : UI) (t : Todo) (uuid : jsstr) :
  unique_ids ui → t ∈ todos (ui_app ui) → trim (text t) ≠ [] →
  ∃ ui', runUI ui [ClickEdit t; ClickSave uuid] = Some ui' ∧
         todos (ui_app ui') = todos (ui_app ui) ∧
         isOpen (modal (ui_app ui')) = false ∧
         ui_form ui' = emptyForm.
Proof.
  intros Hnodup Ht Hne. simpl.
  rewrite (proj2 (truthy_true _) Hne). simpl.
  unfold handleSubmit. simpl. rewrite (proj2 (truthy_true _) Hne). simpl.
  eexists. split; [reflexivity|]. simpl. split; [|done].
  unfold mapUpdate. apply list_eq. intros k. rewrite list_lookup_fmap.
  destruct (todos (ui_app ui) !! k) as [u|] eqn:Hk; [simpl | done].
  case_decide as Hu; [|done].
  assert (u = t) as ->.
  { eapply unique_ids_same_record; [exact Hnodup | done | | done].
    apply list_elem_of_lookup. by exists k. }
  by destruct t.
Qed.

(** A delete takes two steps: asking for it changes nothing in the
    collection, cancelling leaves it as it was, and only the confirmation
    removes the records with the id that was asked for and closes the
    dialog. *)
Theorem delete_needs_confirmation (ui : UI) (i : jsstr) :
  i ∈ ids (todos (ui_app ui)) →
  (∃ ui', runUI ui [ClickDelete i] = Some ui' ∧
          todos (ui_app ui') = todos (ui_app ui) ∧
          deleteModal (ui_app ui')
          = {| del_isOpen := true; del_id := Some i |}) ∧
  (∃ ui', runUI ui [ClickDelete i; ClickCancelDelete] = Some ui' ∧
          todos (ui_app ui') = todos (ui_app ui) ∧
          del_isOpen (deleteModal (ui_app ui')) = false) ∧
  (∃ ui', runUI ui [ClickDelete i; ClickConfirmDelete] = Some ui' ∧
          todos (ui_app ui') = filterOut i (todos (ui_app ui)) ∧
          (i ∉ ids (todos (ui_app ui'))) ∧
          (length (todos (ui_app ui')) < length (todos (ui_app ui)))%nat ∧
          del_isOpen (deleteModal (ui_app ui')) = false).
Proof.
  intros Hi. split; [|split].
  - eexists. split; [reflexivity|]. done.
  - eexists. split; [reflexivity|]. done.
  - eexists. split; [reflexivity|]. simpl.
    split; [done|]. split; [apply not_elem_of_ids_filterOut|].
    split; [|done].
    unfold filterOut, ids in *.
    apply list_elem_of_fmap in Hi as (t & -> & Ht).
    clear -Ht. induction (todos (ui_app ui)) as [|u l IH];
      [by apply elem_of_nil in Ht|].
    rewrite filter_cons. pose proof (length_filter (λ v, id v ≠ id t) l).
    apply elem_of_cons in Ht as [<- | Ht].
    + rewrite decide_False by tauto. simpl. lia.
    + specialize (IH Ht). case_decide; simpl; lia.
Qed.

End InterfaceFacts.

(** ** Further concrete runs *)

Lemma storage_follows_collection_witness :
  (∀ ls k s, quotaExceeded ls k s = false) ∧
  synced (handleDeleteTodo (js "1") (demoApp [milk; dog])).
Proof.
  assert (Hq : ∀ ls k s, quotaExceeded ls k s = false) by done.
  split; [exact Hq|].
  exact (proj1 (proj2 (proj2 (storage_follows_collection
                                (demoApp [milk; dog]) Hq))) (js "1")).
Defined.

Lemma other_keys_untouched_witness :
  js "theme_dark" ≠ js "todo_list_demo" ∧
  localStorage (run (demoApp [milk]) [Remove (js "1"); ToggleDone (js "2")])
    !! js "theme_dark"
  = localStorage (demoApp [milk]) !! js "theme_dark".
Proof.
  assert (Hk : js "theme_dark" ≠ js "todo_list_demo") by discriminate.
  split; [exact Hk|].
  exact (other_keys_untouched (demoApp [milk])
           [Remove (js "1"); ToggleDone (js "2")] (js "theme_dark") Hk).
Defined.

Lemma reload_restores_collection_witness :
  (∀ ls k s, quotaExceeded ls k s = false) ∧
  synced (storedApp [milk]) ∧
  todos (App_init (localStorage (run (storedApp [milk]) [Remove (js "1")]))
           (js "u1") (js "u2"))
  = [].
Proof.
  assert (Hq : ∀ ls k s, quotaExceeded ls k s = false) by done.
  assert (Hs : synced (storedApp [milk])) by apply lookup_singleton_eq.
  split; [exact Hq|]. split; [exact Hs|].
  apply (reload_restores_collection (storedApp [milk]) [Remove (js "1")]
           (js "u1") (js "u2") Hq Hs); [reflexivity | discriminate].
Defined.

Lemma refused_writes_are_lost_witness :
  (∀ ls k s, @quotaExceeded fullBrowser ls k s = true) ∧
  @synced fullBrowser (storedApp []) ∧
  todos (@run fullBrowser (storedApp [])
           [Add (js "3") (js "Call mum") (js "low")])
  = [ {| id := js "3"; text := js "Call mum"; done := false;
         priority := js "low" |} ] ∧
  todos (@App_init fullBrowser
           (localStorage (@run fullBrowser (storedApp [])
                            [Add (js "3") (js "Call mum") (js "low")]))
           (js "u1") (js "u2"))
  = [].
Proof.
  assert (Hq : ∀ ls k s, @quotaExceeded fullBrowser ls k s = true) by done.
  assert (Hs : @synced fullBrowser (storedApp []))
    by apply lookup_singleton_eq.
  split; [exact Hq|]. split; [exact Hs|]. split; [reflexivity|].
  apply (proj2 (@refused_writes_are_lost fullBrowser (storedApp [])
                  [Add (js "3") (js "Call mum") (js "low")]
                  (js "u1") (js "u2") Hq Hs eq_refl ltac:(discriminate))).
Defined.

Lemma memory_ignores_storage_witness :
  todos (demoApp [milk]) = todos (storedApp [milk]) ∧
  todos (@run demoBrowser (demoApp [milk]) [ToggleDone (js "1")])
  = todos (@run fullBrowser (storedApp [milk]) [ToggleDone (js "1")]).
Proof.
  split; [reflexivity|].
  by apply memory_ignores_storage.
Defined.

Lemma add_then_remove_witness :
  (js "3" ∉ ids (todos (demoApp [milk; dog]))) ∧
  todos (handleDeleteTodo (js "3")
           (handleAddTodo (js "3") (js " Call mum ") (js "low")
              (demoApp [milk; dog])))
  = [milk; dog].
Proof.
  assert (Hfresh : js "3" ∉ ids (todos (demoApp [milk; dog])))
    by decide_by_computation.
  split; [exact Hfresh|].
  exact (add_then_remove (js "3") (js " Call mum ") (js "low")
           (demoApp [milk; dog]) Hfresh).
Defined.

Lemma toggle_moves_between_views_witness :
  find (js "1") (todos (demoApp [milk; dog])) = Some milk ∧
  done milk = false ∧
  {| id := js "1"; text := js "Buy milk"; done := true;
     priority := js "high" |}
  ∈ filteredTodos (todos (handleToggleDone (js "1") (demoApp [milk; dog])))
      (js "completed") [].
Proof.
  split; [reflexivity|]. split; [reflexivity|].
  exact (proj2 (toggle_moves_between_views (js "1") [] (demoApp [milk; dog])
                  milk eq_refl eq_refl)).
Defined.

Lemma view_all_is_everything_witness :
  js "all" ≠ js "active" ∧ js "all" ≠ js "completed" ∧
  filteredTodos [milk; dog] (js "all") [] = [milk; dog].
Proof.
  assert (Ha : js "all" ≠ js "active") by discriminate.
  assert (Hc : js "all" ≠ js "completed") by discriminate.
  split; [exact Ha|]. split; [exact Hc|].
  exact (view_all_is_everything [milk; dog] (js "all") Ha Hc).
Defined.

Lemma debounce_settles_witness :
  (0 ≤ 400)%Z ∧ (-1000 + 400 ≤ 700)%Z ∧
  (∀ p, p ∈ [(0, js "m"); (100, js "mi"); (300, js "mil")]%Z
        → (p.1 + 400 ≤ 700)%Z) ∧
  Debounce.output_at 400 (Debounce.mount 400 (js "") (-1000))
    [(0, js "m"); (100, js "mi"); (300, js "mil")]%Z 700
  = js "mil".
Proof.
  assert (Hd : (0 ≤ 400)%Z) by lia.
  assert (Ht0 : (-1000 + 400 ≤ 700)%Z) by lia.
  assert (Hin : ∀ p, p ∈ [(0, js "m"); (100, js "mi"); (300, js "mil")]%Z
                     → (p.1 + 400 ≤ 700)%Z).
  { intros p Hp. repeat (apply elem_of_cons in Hp as [-> | Hp]; [simpl; lia|]).
    by apply elem_of_nil in Hp. }
  split; [exact Hd|]. split; [exact Ht0|]. split; [exact Hin|].
  exact (debounce_settles 400 (-1000) 700 (js "")
           [(0, js "m"); (100, js "mi"); (300, js "mil")]%Z Hd Ht0 Hin).
Defined.

Lemma toast_lasts_three_seconds_witness :
  (1000 ≤ 3999)%Z ∧
  Toasts.shown (Toasts.elapse 3999
                  (Toasts.showToast 1000 (js "Task added!") Toasts.idle))
  = {| isShow := true; message := js "Task added!" |}.
Proof.
  assert (Ht : (1000 ≤ 3999)%Z) by lia.
  split; [exact Ht|].
  exact (toast_lasts_three_seconds 1000 3999 (js "Task added!") Ht).
Defined.

Lemma second_toast_cut_short_witness :
  (0 ≤ 2000)%Z ∧ (2000 < 0 + 3000)%Z ∧ (2000 ≤ 3000)%Z ∧
  Toasts.shown
    (Toasts.elapse 3000
       (Toasts.showToast 2000 (js "Task deleted.")
          (Toasts.elapse 2000
             (Toasts.showToast 0 (js "Task added!") Toasts.idle))))
  = Toasts.hidden.
Proof.
  assert (H12 : (0 ≤ 2000)%Z) by lia.
  assert (H21 : (2000 < 0 + 3000)%Z) by lia.
  assert (Ht : (2000 ≤ 3000)%Z) by lia.
  split; [exact H12|]. split; [exact H21|]. split; [exact Ht|].
  exact (second_toast_cut_short 0 2000 3000 (js "Task added!")
           (js "Task deleted.") H12 H21 Ht).
Defined.


Lemma interface_keeps_ids_unique_witness :
  unique_ids (mkUI (demoApp [milk; dog]) emptyForm) ∧
  feasible (mkUI (demoApp [milk; dog]) emptyForm)
    [ClickAdd; ChangeText (js " Call mum "); ClickSave (js "3");
     ClickEdit milk; ChangeText (js "Buy oat milk"); ClickSave (js "4");
     ClickToggle (js "2"); ClickDelete (js "1"); ClickConfirmDelete] ∧
  ∃ ui', runUI (mkUI (demoApp [milk; dog]) emptyForm)
           [ClickAdd; ChangeText (js " Call mum "); ClickSave (js "3");
            ClickEdit milk; ChangeText (js "Buy oat milk"); ClickSave (js "4");
            ClickToggle (js "2"); ClickDelete (js "1"); ClickConfirmDelete]
         = Some ui' ∧ unique_ids ui'.
Proof.
  assert (Hnodup : unique_ids (mkUI (demoApp [milk; dog]) emptyForm))
    by decide_by_computation.
  assert (Hfeas : feasible (mkUI (demoApp [milk; dog]) emptyForm)
    [ClickAdd; ChangeText (js " Call mum "); ClickSave (js "3");
     ClickEdit milk; ChangeText (js "Buy oat milk"); ClickSave (js "4");
     ClickToggle (js "2"); ClickDelete (js "1"); ClickConfirmDelete]).
  { simpl. repeat split; try done; decide_by_computation. }
  split; [exact Hnodup|]. split; [exact Hfeas|].
  eexists. split; [reflexivity|].
  eapply (interface_keeps_ids_unique _ _ _ Hnodup Hfeas). reflexivity.
Defined.

Lemma interface_keeps_texts_nonblank_witness :
  nonblank (todos (ui_app (mkUI (demoApp [milk; dog]) emptyForm))) ∧
  ∃ ui', runUI (mkUI (demoApp [milk; dog]) emptyForm)
           [ClickEdit milk; ChangeText (js " Buy oat milk "); ClickSave (js "3")]
         = Some ui' ∧ nonblank (todos (ui_app ui')).
Proof.
  assert (Hnb : nonblank (todos (ui_app (mkUI (demoApp [milk; dog])
                                           emptyForm))))
    by (repeat constructor; discriminate).
  split; [exact Hnb|].
  eexists. split; [reflexivity|].
  eapply (interface_keeps_texts_nonblank _ _
            [ClickEdit milk; ChangeText (js " Buy oat milk ");
             ClickSave (js "3")] Hnb).
  reflexivity.
Defined.

Lemma edit_unchanged_is_identity_witness :
  unique_ids (mkUI (demoApp [milk; dog]) emptyForm) ∧
  milk ∈ todos (ui_app (mkUI (demoApp [milk; dog]) emptyForm)) ∧
  trim (text milk) ≠ [] ∧
  ∃ ui', runUI (mkUI (demoApp [milk; dog]) emptyForm)
           [ClickEdit milk; ClickSave (js "3")] = Some ui' ∧
         todos (ui_app ui') = [milk; dog].
Proof.
  assert (Hnodup : unique_ids (mkUI (demoApp [milk; dog]) emptyForm))
    by decide_by_computation.
  assert (Hin : milk ∈ todos (ui_app (mkUI (demoApp [milk; dog]) emptyForm)))
    by (by left).
  assert (Hne : trim (text milk) ≠ []) by discriminate.
  split; [exact Hnodup|]. split; [exact Hin|]. split; [exact Hne|].
  destruct (edit_unchanged_is_identity _ milk (js "3") Hnodup Hin Hne)
    as (ui' & Hrun & Htodos & _).
  by exists ui'.
Defined.

Lemma delete_needs_confirmation_witness :
  js "1" ∈ ids (todos (ui_app (mkUI (demoApp [milk; dog]) emptyForm))) ∧
  ∃ ui', runUI (mkUI (demoApp [milk; dog]) emptyForm)
           [ClickDelete (js "1"); ClickConfirmDelete] = Some ui' ∧
         todos (ui_app ui') = [dog].
Proof.
  assert (Hin : js "1" ∈ ids (todos (ui_app (mkUI (demoApp [milk; dog])
                                                emptyForm))))
    by decide_by_computation.
  split; [exact Hin|].
  destruct (proj2 (proj2 (delete_needs_confirmation _ (js "1") Hin)))
    as (ui' & Hrun & Htodos & _).
  exists ui'. split; [exact Hrun|]. by rewrite Htodos.
Defined.

Lemma submit_new_trimmed_witness :
  mode (modal (demoApp [dog])) = ModeNew ∧
  trim (js " Buy milk ") ≠ [] ∧
  ∃ t, todos (handleCloseModal
                (handleAddTodo (js "3") (js " Buy milk ") (js "high")
                   (demoApp [dog])))
       = t :: [dog] ∧ trimmed_nonempty (text t).
Proof.
  assert (Hne : trim (js " Buy milk ") ≠ []) by discriminate.
  split; [reflexivity|]. split; [exact Hne|].
  exact (submit_new_trimmed (js "3")
           {| form_text := js " Buy milk "; form_priority := js "high" |}
           (demoApp [dog]) _ eq_refl Hne eq_refl).
Defined.

(** An emptied collection stays empty over a reload: the stored [[]]
    is a truthy item, the seeds do not come back. *)
Example emptied_list_is_not_reseeded :
  todos (App_init
           (localStorage (handleDeleteTodo (js "1") (storedApp [milk])))
           (js "u1") (js "u2"))
  = [].
Proof. by vm_compute. Qed.

(** ** The events of the whole page *)

Section PageFacts.
Context `{Browser}.
Variable JSON_stringify_flag : jsstr → jsstr.

Lemma storage_toggleTheme_other (st : Theme.State) (k : jsstr) :
  k ≠ Theme.theme_dark →
  Theme.storage (Theme.toggleTheme JSON_stringify_flag quotaExceeded st) !! k
  = Theme.storage st !! k.
Proof.
  intros Hk. unfold Theme.toggleTheme, setValue, setItem. simpl.
  destruct (quotaExceeded _ _ _); [done|]. by rewrite lookup_insert_ne.
Qed.

(** Of all the events the page answers to (the theme button, the search
    box, the status select, the add button, the three buttons of a task,
    the fields and buttons of the add/edit dialog, the two buttons of the
    delete dialog) only a save, a toggle and a confirmed delete can
    change the collection or what the storage holds under
    ['todo_list_demo']. The theme button leaves the collection alone and
    changes the storage under ['theme_dark'] at most; every other event
    leaves the collection and the whole storage as they are. *)
Theorem page_events_that_write (pg pg' : Page) (e : PageEvent) :
  pageDispatch JSON_stringify_flag pg e = Some pg' →
  let before := ui_app (pg_ui pg) in
  let after := ui_app (pg_ui pg') in
  match e with
  | OnTask (ClickSave _) | OnTask (ClickToggle _)
  | OnTask ClickConfirmDelete => True
  | ClickTheme =>
      todos after = todos before ∧
      localStorage after !! js "todo_list_demo"
      = localStorage before !! js "todo_list_demo" ∧
      ∀ k, k ≠ js "theme_dark" →
           localStorage after !! k = localStorage before !! k
  | _ =>
      todos after = todos before ∧
      localStorage after = localStorage before
  end.
Proof.
  intros Hd before after. subst before after.
  destruct e as [e| |s|f]; simpl in Hd.
  - destruct (dispatch (pg_ui pg) e) as [ui'|] eqn:Hui; [|done].
    injection Hd as <-. simpl.
    pose proof (only_three_events_write _ _ _ Hui) as Hframe.
    by destruct e.
  - injection Hd as <-.
    pose proof (storage_toggleTheme_other
                  (Theme.mkState (pg_theme pg) (pg_classList pg)
                     (localStorage (ui_app (pg_ui pg))))) as Hother.
    split; [done|]. split; [apply Hother; discriminate|].
    intros k Hk. by apply Hother.
  - by injection Hd as <-.
  - by injection Hd as <-.
Qed.

End PageFacts.

Lemma page_events_that_write_witness :
  pageDispatch quoted
    (mkPage (mkUI (storedApp [milk; dog]) emptyForm) (js "0") ∅ [] (js "all"))
    ClickTheme
  = Some (mkPage
            (mkUI (withStorage
                     (<[ js "theme_dark" := quoted (js "1") ]>
                        (localStorage (storedApp [milk; dog])))
                     (storedApp [milk; dog]))
               emptyForm)
            (js "1") {[ js "dark-theme" ]} [] (js "all")) ∧
  localStorage
    (withStorage
       (<[ js "theme_dark" := quoted (js "1") ]>
          (localStorage (storedApp [milk; dog])))
       (storedApp [milk; dog])) !! js "todo_list_demo"
  = localStorage (storedApp [milk; dog]) !! js "todo_list_demo".
Proof.
  assert (Hd : pageDispatch quoted
    (mkPage (mkUI (storedApp [milk; dog]) emptyForm) (js "0") ∅ [] (js "all"))
    ClickTheme
  = Some (mkPage
            (mkUI (withStorage
                     (<[ js "theme_dark" := quoted (js "1") ]>
                        (localStorage (storedApp [milk; dog])))
                     (storedApp [milk; dog]))
               emptyForm)
            (js "1") {[ js "dark-theme" ]} [] (js "all"))).
  { by vm_compute. }
  split; [exact Hd|].
  exact (proj1 (proj2 (page_events_that_write quoted _ _ ClickTheme Hd))).
Defined.
